(** * Reward determination and collection bookkeeping

    A shallow embedding of [server/routes/rewards.ts] (with the types it
    uses from [shared/api.ts]) and the properties its specification states.

    Modelling conventions.
    - A JavaScript [number] that carries telemetry, a score or a random
      draw is an exact rational ([Q]); binary64 rounding, [NaN] and the
      infinities are outside the model.  Integer-valued numbers produced by
      [Math.floor] / [Math.round] are [Z], array lengths are [nat].
    - The handlers run against a [World]: the source of [Math.random]
      draws, the wall clock read by [new Date()] / [Date.now()], the
      outcomes of the outbound [fetch] calls, and the module-level
      [cardCollections] map.  Each read of a source returns the next entry
      and advances a cursor, so the number and the order of the reads a
      function makes are visible.
    - A handler is a state transformer over the [World]; requests are
      handled one after the other (no handler is interleaved with the
      [await] of another one).
    - An array held in [cardCollections] is a shared mutable object in the
      source: [push] and [sort] change the stored array.  The model writes
      every such change back into the map. *)

From Stdlib Require Import QArith Qminmax Qround ZArith Lia Lqa Sorted.
From stdpp Require Import gmap strings list fin_maps.

Local Open Scope string_scope.
Local Open Scope list_scope.

(** ** Types of [shared/api.ts] *)

Inductive Universe := Marvel | DC | Other.

(** The string a [Universe] value is at run time. *)
Definition universe_str (u : Universe) : string :=
  match u with
  | Marvel => "Marvel"
  | DC => "DC"
  | Other => "Other"
  end.

Record Attributes := {
  powers : list string;
}.

(** The fields of [Character] that the reward routes read. *)
Record Character := {
  ch_id : string;
  ch_name : string;
  ch_universe : Universe;
  ch_imageUrl : string;
  ch_characterImageUrl : string;
  ch_attributes : Attributes;
}.

Inductive CardRarity := common | rare | epic | legendary | mythic.

Inductive Variant := standard | shiny | holographic | animated.

#[global] Instance CardRarity_eq_dec : EqDecision CardRarity.
Proof. solve_decision. Defined.

#[global] Instance Variant_eq_dec : EqDecision Variant.
Proof. solve_decision. Defined.

Definition rarity_code (r : CardRarity) : nat :=
  match r with
  | common => 0 | rare => 1 | epic => 2 | legendary => 3 | mythic => 4
  end.

Definition rarity_of_code (n : nat) : CardRarity :=
  match n with
  | 0 => common | 1 => rare | 2 => epic | 3 => legendary | _ => mythic
  end.

#[global] Instance CardRarity_countable : Countable CardRarity.
Proof.
  apply (inj_countable' rarity_code rarity_of_code).
  intros []; reflexivity.
Defined.

Record Stats := {
  popularity : Z;
  difficulty : Z;
  power : Z;
}.

(** The card id is the template string
    [`${characterId}-${Date.now()}-${Math.random().toString(36).substr(2, 9)}`];
    its three holes are kept apart. *)
Record CardId := {
  id_character : string;
  id_now : Z;
  id_random : Q;
}.

Record CharacterCard := {
  card_id : CardId;
  characterId : string;
  characterName : string;
  rarity : CardRarity;
  serialNumber : nat;
  maxSupply : Z;
  unlockedAt : Z;            (* an ISO timestamp, as epoch milliseconds *)
  variant : Variant;
  stats : Stats;
  imageUrl : string;
  characterImageUrl : string;
}.

Record Achievement := {
  ach_id : string;
  ach_name : string;
  ach_description : string;
  ach_icon : string;
  ach_unlockedAt : option Z; (* [None] is [undefined]: locked *)
  ach_progress : nat;
  ach_maxProgress : nat;
}.

Record Performance := {
  perf_guessTime : Q;
  perf_cluesUsed : Q;
  perf_wrongAttempts : Q;
  perf_score : Q;
}.

Record CardReward := {
  card : CharacterCard;
  isFirstTime : bool;
  isDuplicate : bool;
  performance : Performance;
  bonusMultiplier : Q;
  unlockedAchievements : list Achievement;
}.

(** The request body after [express.json()].  A field that the client left
    out is [undefined] ([None]); a field that is present has the type
    [AwardCardRequest] declares. *)
Record AwardCardRequest := {
  req_characterId : option string;
  req_guessTime : option Q;
  req_cluesUsed : option Q;
  req_wrongAttempts : option Q;
  req_isWon : option bool;
}.

(** What [res.status(..).json(..)] sends: [AwardCardResponse] together with
    the HTTP status. *)
Inductive AwardCardResponse :=
| AwardSuccess (reward : CardReward)              (* 200, success: true *)
| AwardFailure (status : nat) (error : string).   (* success: false *)

Record CardCollection := {
  cards : list CharacterCard;
  totalCards : nat;
  uniqueCharacters : nat;
  rarityCount : gmap CardRarity nat;
  completionPercentage : Q;
}.

(** ** The world the handlers run in *)

(** How one [fetch] of the difficulty service ends. *)
Inductive FetchOutcome :=
| FetchRejects                       (* fetch throws: network error *)
| FetchNotOk                         (* a response with [ok] false *)
| FetchOkBadBody                     (* [ok], but reading the body throws *)
| FetchOk (difficulty_score : Q).    (* [ok], body with a numeric score *)

Record World := {
  rand_src : nat -> Q;               (* the successive [Math.random()] values *)
  rand_pos : nat;
  clock_src : nat -> Z;              (* the successive clock readings, in ms *)
  clock_pos : nat;
  fetch_src : nat -> FetchOutcome;
  fetch_pos : nat;
  errors_logged : nat;               (* calls of [console.error] *)
  cardCollections : gmap string (list CharacterCard);
}.

(** [Math.random()] returns a number in [0, 1). *)
Definition rng_valid (w : World) : Prop :=
  forall n, (0 <= rand_src w n /\ rand_src w n < 1)%Q.

Definition M (A : Type) : Type := World -> A * World.

Definition ret {A} (a : A) : M A := fun w => (a, w).

Definition bind {A B} (m : M A) (k : A -> M B) : M B :=
  fun w => let (a, w') := m w in k a w'.

Declare Scope handler_scope.
Delimit Scope handler_scope with handler.
Notation "x <- m ;; k" := (bind m (fun x => k))
  (at level 100, m at next level, right associativity) : handler_scope.
Notation "m ;;; k" := (bind m (fun _ => k))
  (at level 100, right associativity) : handler_scope.

Definition set_rand_pos (n : nat) (w : World) : World :=
  {| rand_src := rand_src w; rand_pos := n;
     clock_src := clock_src w; clock_pos := clock_pos w;
     fetch_src := fetch_src w; fetch_pos := fetch_pos w;
     errors_logged := errors_logged w;
     cardCollections := cardCollections w |}.

Definition set_clock_pos (n : nat) (w : World) : World :=
  {| rand_src := rand_src w; rand_pos := rand_pos w;
     clock_src := clock_src w; clock_pos := n;
     fetch_src := fetch_src w; fetch_pos := fetch_pos w;
     errors_logged := errors_logged w;
     cardCollections := cardCollections w |}.

Definition set_fetch_pos (n : nat) (w : World) : World :=
  {| rand_src := rand_src w; rand_pos := rand_pos w;
     clock_src := clock_src w; clock_pos := clock_pos w;
     fetch_src := fetch_src w; fetch_pos := n;
     errors_logged := errors_logged w;
     cardCollections := cardCollections w |}.

Definition set_errors_logged (n : nat) (w : World) : World :=
  {| rand_src := rand_src w; rand_pos := rand_pos w;
     clock_src := clock_src w; clock_pos := clock_pos w;
     fetch_src := fetch_src w; fetch_pos := fetch_pos w;
     errors_logged := n;
     cardCollections := cardCollections w |}.

Definition set_cardCollections (m : gmap string (list CharacterCard))
    (w : World) : World :=
  {| rand_src := rand_src w; rand_pos := rand_pos w;
     clock_src := clock_src w; clock_pos := clock_pos w;
     fetch_src := fetch_src w; fetch_pos := fetch_pos w;
     errors_logged := errors_logged w;
     cardCollections := m |}.

(** [Math.random()] *)
Definition Math_random : M Q :=
  fun w => (rand_src w (rand_pos w), set_rand_pos (S (rand_pos w)) w).

(** [Date.now()], and the instant of [new Date()] *)
Definition Date_now : M Z :=
  fun w => (clock_src w (clock_pos w), set_clock_pos (S (clock_pos w)) w).

(** [fetch(url, ..)] of the difficulty service *)
Definition fetch_difficulty : M FetchOutcome :=
  fun w => (fetch_src w (fetch_pos w), set_fetch_pos (S (fetch_pos w)) w).

Definition console_error : M unit :=
  fun w => (tt, set_errors_logged (S (errors_logged w)) w).

(** Comparisons of JavaScript numbers. *)
Definition Qltb (x y : Q) : bool := negb (Qle_bool y x).
Definition Qgeb (x y : Q) : bool := Qle_bool y x.

(** [Math.floor] and [Math.round] (halves round up). *)
Definition Math_floor (x : Q) : Z := Qfloor x.
Definition Math_round (x : Q) : Z := Qfloor (x + (1 # 2)).

(** ** [rewards.ts] *)

(** [!isWon]: [undefined] and [false] are falsy. *)
Definition is_falsy (b : option bool) : bool :=
  match b with
  | Some true => false
  | _ => true
  end.

Definition calculatePerformanceScore
    (guessTime cluesUsed wrongAttempts : Q) (isWon : option bool) : Q :=
  if is_falsy isWon then 0%Q
  else
    let score := 100%Q in
    let timePenalty := (Qmin 30 guessTime / 30 * 30)%Q in
    let score := (score - timePenalty)%Q in
    let score := (score - cluesUsed * 10)%Q in
    let score := (score - wrongAttempts * 5)%Q in
    Qmax 0 (Qmin 100 score).

Definition determineRarity (performanceScore : Q) : M CardRarity :=
  (if Qgeb performanceScore 95 then
     roll <- Math_random ;;
     let roll := (roll * 100)%Q in
     if Qltb roll 20 then ret mythic
     else if Qltb roll 60 then ret legendary
     else ret epic
   else if Qgeb performanceScore 80 then
     roll <- Math_random ;;
     let roll := (roll * 100)%Q in
     if Qltb roll 5 then ret mythic
     else if Qltb roll 30 then ret legendary
     else if Qltb roll 70 then ret epic
     else ret rare
   else if Qgeb performanceScore 60 then
     roll <- Math_random ;;
     let roll := (roll * 100)%Q in
     if Qltb roll 40 then ret epic
     else if Qltb roll 80 then ret rare
     else ret common
   else if Qgeb performanceScore 40 then
     roll <- Math_random ;;
     let roll := (roll * 100)%Q in
     if Qltb roll 10 then ret epic
     else if Qltb roll 50 then ret rare
     else ret common
   else
     roll <- Math_random ;;
     let roll := (roll * 100)%Q in
     if Qltb roll 20 then ret rare
     else ret common)%handler.

Definition determineVariant (rarity : CardRarity) : M Variant :=
  (roll <- Math_random ;;
   let roll := (roll * 100)%Q in
   match rarity with
   | mythic =>
       if Qltb roll 50 then ret animated
       else if Qltb roll 80 then ret holographic
       else ret shiny
   | legendary =>
       if Qltb roll 20 then ret animated
       else if Qltb roll 50 then ret holographic
       else if Qltb roll 80 then ret shiny
       else ret standard
   | epic =>
       if Qltb roll 10 then ret holographic
       else if Qltb roll 40 then ret shiny
       else ret standard
   | rare =>
       if Qltb roll 20 then ret shiny
       else ret standard
   | common => ret standard
   end)%handler.

(** [Array.prototype.sort] with a comparator: a stable sort that puts [a]
    before [b] when [cmp a b < 0] and keeps the order of elements that
    compare equal. *)
Fixpoint sort_insert {A} (cmp : A -> A -> Z) (x : A) (l : list A) : list A :=
  match l with
  | [] => [x]
  | y :: l' =>
      if (cmp x y <=? 0)%Z then x :: y :: l' else y :: sort_insert cmp x l'
  end.

Definition Array_sort {A} (cmp : A -> A -> Z) (l : list A) : list A :=
  foldr (sort_insert cmp) [] l.

(** [getCollection]: creates the user's array on first use and returns it.
    The returned value is the array stored in the map. *)
Definition getCollection (userId : string) : M (list CharacterCard) :=
  fun w =>
    let w' :=
      if bool_decide (is_Some (cardCollections w !! userId)) then w
      else set_cardCollections (<[userId := []]> (cardCollections w)) w in
    (default [] (cardCollections w' !! userId), w').

(** [collection.push(newCard)] on the array of [userId]; yields the array as
    it is after the push. *)
Definition collection_push (userId : string) (newCard : CharacterCard)
  : M (list CharacterCard) :=
  fun w =>
    let collection := default [] (cardCollections w !! userId) ++ [newCard] in
    (collection,
     set_cardCollections (<[userId := collection]> (cardCollections w)) w).

(** [collection.sort(cmp)] on the array of [userId]: sorts the stored array
    and yields it. *)
Definition collection_sort (userId : string)
    (cmp : CharacterCard -> CharacterCard -> Z) : M (list CharacterCard) :=
  fun w =>
    let collection := Array_sort cmp (default [] (cardCollections w !! userId)) in
    (collection,
     set_cardCollections (<[userId := collection]> (cardCollections w)) w).

Definition popularUniverses : list string :=
  ["Marvel Comics"; "DC Comics"; "Star Wars"; "Harry Potter"].

Definition includes (l : list string) (s : string) : bool :=
  bool_decide (s ∈ l).

Definition maxSupply_of (rarity : CardRarity) : Z :=
  if decide (rarity = mythic) then 100
  else if decide (rarity = legendary) then 500
  else if decide (rarity = epic) then 1000
  else if decide (rarity = rare) then 5000
  else 10000.

Definition first_card (now : Z) : Achievement :=
  {| ach_id := "first-card"; ach_name := "First Card";
     ach_description := "Unlock your first character card"; ach_icon := "🎴";
     ach_unlockedAt := Some now; ach_progress := 1; ach_maxProgress := 1 |}.

Definition collector (now : Z) : Achievement :=
  {| ach_id := "collector"; ach_name := "Collector";
     ach_description := "Unlock 10 character cards"; ach_icon := "📚";
     ach_unlockedAt := Some now; ach_progress := 10; ach_maxProgress := 10 |}.

Definition legendary_pull (now : Z) : Achievement :=
  {| ach_id := "legendary-pull"; ach_name := "Legendary Pull";
     ach_description := "Unlock your first legendary card"; ach_icon := "🌟";
     ach_unlockedAt := Some now; ach_progress := 1; ach_maxProgress := 1 |}.

Definition perfect_game (now : Z) : Achievement :=
  {| ach_id := "perfect-game"; ach_name := "Perfect Game";
     ach_description := "Complete a game with a perfect score"; ach_icon := "💯";
     ach_unlockedAt := Some now; ach_progress := 1; ach_maxProgress := 1 |}.

(** [if (cond) unlockedAchievements.push(mk(new Date()))] *)
Definition push_if (cond : bool) (mk : Z -> Achievement)
    (unlocked : list Achievement) : M (list Achievement) :=
  (if cond then now <- Date_now ;; ret (unlocked ++ [mk now])
   else ret unlocked)%handler.

Section Routes.

(** The character catalog of [server/data/characters.ts]. *)
Variable CHARACTERS : list Character.

Definition find_character (characterId : string) : option Character :=
  List.find (fun c => bool_decide (ch_id c = characterId)) CHARACTERS.

Definition calculateCharacterStats (characterId : string) : M Stats :=
  match find_character characterId with
  | None => ret {| popularity := 50; difficulty := 50; power := 50 |}
  | Some character =>
     (popularity <-
        (if includes popularUniverses (universe_str (ch_universe character))
         then r <- Math_random ;; ret (Math_floor (r * 30) + 70)%Z
         else r <- Math_random ;; ret (Math_floor (r * 50) + 30)%Z) ;;
      difficulty <-
        (outcome <- fetch_difficulty ;;
         match outcome with
         | FetchOk difficulty_score => ret (Math_round difficulty_score)
         | FetchNotOk => ret 50%Z
         | FetchRejects | FetchOkBadBody =>
             console_error ;;;
             r <- Math_random ;; ret (Math_floor (r * 100))
         end) ;;
      let hasPowers := (0 <? length (powers (ch_attributes character)))%nat in
      power <-
        (if hasPowers
         then r <- Math_random ;; ret (Math_floor (r * 30) + 60)%Z
         else r <- Math_random ;; ret (Math_floor (r * 60) + 20)%Z) ;;
      ret {| popularity := popularity; difficulty := difficulty;
             power := power |})%handler
  end.

Definition awardCard (req : AwardCardRequest) : M AwardCardResponse :=
  match req_characterId req, req_guessTime req,
        req_cluesUsed req, req_wrongAttempts req with
  | Some cid, Some guessTime, Some cluesUsed, Some wrongAttempts =>
    if bool_decide (cid = EmptyString) then
      ret (AwardFailure 400 "Missing required fields")
    else
    match find_character cid with
    | None => ret (AwardFailure 404 "Character not found")
    | Some character =>
      let performanceScore :=
        calculatePerformanceScore guessTime cluesUsed wrongAttempts
          (req_isWon req) in
      (rarity' <- determineRarity performanceScore ;;
       variant <- determineVariant rarity' ;;
       collection <- getCollection "default" ;;
       let existingCards := filter (fun c => characterId c = cid) collection in
       let isFirstTime := (length existingCards =? 0)%nat in
       let serialNumber := (length existingCards + 1)%nat in
       let maxSupply := maxSupply_of rarity' in
       characterStats <- calculateCharacterStats cid ;;
       now <- Date_now ;;
       suffix <- Math_random ;;
       unlocked <- Date_now ;;
       let newCard :=
         {| card_id := {| id_character := cid; id_now := now;
                          id_random := suffix |};
            characterId := cid;
            characterName := ch_name character;
            rarity := rarity';
            serialNumber := serialNumber;
            maxSupply := maxSupply;
            unlockedAt := unlocked;
            variant := variant;
            stats := characterStats;
            imageUrl := ch_imageUrl character;
            characterImageUrl :=
              if bool_decide (ch_characterImageUrl character = EmptyString)
              then ch_imageUrl character
              else ch_characterImageUrl character |} in
       collection <- collection_push "default" newCard ;;
       let bonusMultiplier := (performanceScore / 100)%Q in
       let unlockedAchievements := [] in
       unlockedAchievements <-
         push_if (length collection =? 1)%nat first_card
           unlockedAchievements ;;
       unlockedAchievements <-
         push_if (length collection =? 10)%nat collector
           unlockedAchievements ;;
       unlockedAchievements <-
         push_if
           (bool_decide (rarity' = legendary) &&
            (length (filter (fun c => rarity c = legendary) collection)
             =? 1)%nat)
           legendary_pull unlockedAchievements ;;
       unlockedAchievements <-
         push_if (Qeq_bool performanceScore 100) perfect_game
           unlockedAchievements ;;
       ret (AwardSuccess
              {| card := newCard;
                 isFirstTime := isFirstTime;
                 isDuplicate := negb isFirstTime;
                 performance :=
                   {| perf_guessTime := guessTime;
                      perf_cluesUsed := cluesUsed;
                      perf_wrongAttempts := wrongAttempts;
                      perf_score := performanceScore |};
                 bonusMultiplier := bonusMultiplier;
                 unlockedAchievements := unlockedAchievements |}))%handler
    end
  | _, _, _, _ => ret (AwardFailure 400 "Missing required fields")
  end.

(** The comparator of [getCardCollection]:
    [new Date(b.unlockedAt).getTime() - new Date(a.unlockedAt).getTime()] *)
Definition newest_first (a b : CharacterCard) : Z :=
  (unlockedAt b - unlockedAt a)%Z.

(** [acc[card.rarity] = (acc[card.rarity] || 0) + 1] *)
Definition count_rarity (acc : gmap CardRarity nat) (c : CharacterCard)
  : gmap CardRarity nat :=
  <[rarity c := (default 0 (acc !! rarity c) + 1)%nat]> acc.

(** [if (!rarityCount[rarity]) rarityCount[rarity] = 0] *)
Definition fill_rarity (acc : gmap CardRarity nat) (r : CardRarity)
  : gmap CardRarity nat :=
  match acc !! r with
  | Some (S _) => acc
  | _ => <[r := 0%nat]> acc
  end.

Definition allRarities : list CardRarity :=
  [common; rare; epic; legendary; mythic].

(** [completionPercentage] divides by [CHARACTERS.length]; the catalog is
    taken to be non-empty. *)
Definition getCardCollection : M CardCollection :=
  (collection <- getCollection "default" ;;
   let uniqueCharacters :=
     size (list_to_set (map characterId collection) : gset string) in
   let rarityCount := foldl count_rarity ∅ collection in
   let rarityCount := foldl fill_rarity rarityCount allRarities in
   let completionPercentage :=
     (inject_Z (Z.of_nat uniqueCharacters)
      / inject_Z (Z.of_nat (length CHARACTERS)) * 100)%Q in
   sorted <- collection_sort "default" newest_first ;;
   ret {| cards := sorted;
          totalCards := length sorted;
          uniqueCharacters := uniqueCharacters;
          rarityCount := rarityCount;
          completionPercentage := completionPercentage |})%handler.

(** [collection.length >= n ? collection[n - 1].unlockedAt : undefined] *)
Definition unlockedAt_nth (collection : list CharacterCard) (n : nat)
  : option Z :=
  if (n <=? length collection)%nat
  then unlockedAt <$> collection !! (n - 1)%nat
  else None.

(** [collection.find(c => c.rarity === r)?.unlockedAt] *)
Definition unlockedAt_first (collection : list CharacterCard) (r : CardRarity)
  : option Z :=
  unlockedAt <$> List.find (fun c => bool_decide (rarity c = r)) collection.

Definition getAchievements : M (list Achievement) :=
  (collection <- getCollection "default" ;;
   let allAchievements :=
     [ {| ach_id := "first-card"; ach_name := "First Card";
          ach_description := "Unlock your first character card";
          ach_icon := "🎴";
          ach_progress := Nat.min (length collection) 1;
          ach_maxProgress := 1;
          ach_unlockedAt := unlockedAt_nth collection 1 |};
       {| ach_id := "collector"; ach_name := "Collector";
          ach_description := "Unlock 10 character cards";
          ach_icon := "📚";
          ach_progress := Nat.min (length collection) 10;
          ach_maxProgress := 10;
          ach_unlockedAt := unlockedAt_nth collection 10 |};
       {| ach_id := "master-collector"; ach_name := "Master Collector";
          ach_description := "Unlock 50 character cards";
          ach_icon := "🏆";
          ach_progress := Nat.min (length collection) 50;
          ach_maxProgress := 50;
          ach_unlockedAt := unlockedAt_nth collection 50 |};
       {| ach_id := "legendary-pull"; ach_name := "Legendary Pull";
          ach_description := "Unlock your first legendary card";
          ach_icon := "🌟";
          ach_progress :=
            Nat.min
              (length (filter (fun c => rarity c = legendary) collection)) 1;
          ach_maxProgress := 1;
          ach_unlockedAt := unlockedAt_first collection legendary |};
       {| ach_id := "mythic-hunter"; ach_name := "Mythic Hunter";
          ach_description := "Unlock a mythic card";
          ach_icon := "⭐";
          ach_progress :=
            Nat.min
              (length (filter (fun c => rarity c = mythic) collection)) 1;
          ach_maxProgress := 1;
          ach_unlockedAt := unlockedAt_first collection mythic |} ] in
   ret allAchievements)%handler.

End Routes.

(** ** Fixtures for the concrete scenarios *)

(** A two-entry catalog with the ids the repository's API test script
    (test-card-system.js) posts. *)
Definition demo_catalog : list Character :=
  [ {| ch_id := "spider-man"; ch_name := "Spider-Man"; ch_universe := Marvel;
       ch_imageUrl := "/clues/spider-man.png";
       ch_characterImageUrl := "/characters/spider-man.png";
       ch_attributes := {| powers := ["wall-crawling"; "spider-sense"] |} |};
    {| ch_id := "iron-man"; ch_name := "Iron Man"; ch_universe := Marvel;
       ch_imageUrl := "/clues/iron-man.png";
       ch_characterImageUrl := EmptyString;
       ch_attributes := {| powers := [] |} |} ].

(** A fresh process: nothing stored, every [Math.random()] returns [r],
    every [fetch] ends as [f], and the clock reads 1000, 2000, ... *)
Definition fresh_world (r : Q) (f : FetchOutcome) : World :=
  {| rand_src := fun _ => r; rand_pos := 0;
     clock_src := fun n => (1000 * Z.of_nat (S n))%Z; clock_pos := 0;
     fetch_src := fun _ => f; fetch_pos := 0;
     errors_logged := 0;
     cardCollections := ∅ |}.

Definition award_request (cid : string) (guessTime cluesUsed wrongAttempts : Q)
    (isWon : bool) : AwardCardRequest :=
  {| req_characterId := Some cid; req_guessTime := Some guessTime;
     req_cluesUsed := Some cluesUsed; req_wrongAttempts := Some wrongAttempts;
     req_isWon := Some isWon |}.

(** ** Runs of requests *)

(** Requests served one after the other by the three routes. *)
Inductive Request :=
| PostAwardCard (req : AwardCardRequest)
| GetCollection
| GetAchievements.

Inductive Response :=
| AwardCardReply (res : AwardCardResponse)
| CollectionReply (res : CardCollection)
| AchievementsReply (res : list Achievement).

Definition handle (CHARACTERS : list Character) (r : Request) : M Response :=
  match r with
  | PostAwardCard req =>
      (res <- awardCard CHARACTERS req ;; ret (AwardCardReply res))%handler
  | GetCollection =>
      (res <- getCardCollection CHARACTERS ;; ret (CollectionReply res))%handler
  | GetAchievements =>
      (res <- getAchievements ;; ret (AchievementsReply res))%handler
  end.

Fixpoint serve (CHARACTERS : list Character) (rs : list Request)
  : M (list Response) :=
  match rs with
  | [] => ret []
  | r :: rs' =>
      (res <- handle CHARACTERS r ;;
       rest <- serve CHARACTERS rs' ;;
       ret (res :: rest))%handler
  end.

(** The rewards handed out by a run, oldest first. *)
Definition reward_of (r : Response) : option CardReward :=
  match r with
  | AwardCardReply (AwardSuccess reward) => Some reward
  | _ => None
  end.

Definition rewards_of (rs : list Response) : list CardReward :=
  omap reward_of rs.

(** The user's stored array. *)
Definition stored (w : World) : list CharacterCard :=
  default [] (cardCollections w !! "default").

(** ** The weight tables of the specification *)

(** The weights of a score bucket, in the order mythic, legendary, epic, rare,
    common. *)
Definition rarity_weights (score : Q) : list (CardRarity * Q) :=
  if Qle_bool 95 score then
    [(mythic, 20); (legendary, 40); (epic, 40); (rare, 0); (common, 0)]%Q
  else if Qle_bool 80 score then
    [(mythic, 5); (legendary, 25); (epic, 40); (rare, 30); (common, 0)]%Q
  else if Qle_bool 60 score then
    [(mythic, 0); (legendary, 0); (epic, 40); (rare, 40); (common, 20)]%Q
  else if Qle_bool 40 score then
    [(mythic, 0); (legendary, 0); (epic, 10); (rare, 40); (common, 50)]%Q
  else
    [(mythic, 0); (legendary, 0); (epic, 0); (rare, 20); (common, 80)]%Q.

(** The first tier whose cumulative threshold the roll falls under; [common]
    when there is none. *)
Fixpoint pick_cumulative (roll below : Q) (table : list (CardRarity * Q))
  : CardRarity :=
  match table with
  | [] => common
  | (tier, weight) :: rest =>
      if Qltb roll (below + weight) then tier
      else pick_cumulative roll (below + weight) rest
  end.

(** The scoring formula as the specification writes it. *)
Definition score_formula (guessTime cluesUsed wrongAttempts : Q) : Q :=
  Qmax 0 (Qmin 100 (100 - Qmin guessTime 30 / 30 * 30
                    - 10 * cluesUsed - 5 * wrongAttempts)).

(** [maxSupply] by rarity, as the specification lists it. *)
Definition supply_table (r : CardRarity) : Z :=
  match r with
  | mythic => 100
  | legendary => 500
  | epic => 1000
  | rare => 5000
  | common => 10000
  end.

(** ** Definitions used in the statements *)

(** [true] when the [try] block of [calculateCharacterStats] throws. *)
Definition fetch_throws (o : FetchOutcome) : bool :=
  match o with
  | FetchRejects | FetchOkBadBody => true
  | FetchNotOk | FetchOk _ => false
  end.

(** The stats [calculateCharacterStats] computes for a catalog character, as
    a function of the random source, its cursor and the fetch outcome. *)
Definition stats_from (character : Character) (src : nat -> Q) (p : nat)
    (o : FetchOutcome) : Stats :=
  let q := if fetch_throws o then S (S p) else S p in
  {| popularity :=
       if includes popularUniverses (universe_str (ch_universe character))
       then (Math_floor (src p * 30) + 70)%Z
       else (Math_floor (src p * 50) + 30)%Z;
     difficulty :=
       match o with
       | FetchOk difficulty_score => Math_round difficulty_score
       | FetchNotOk => 50%Z
       | FetchRejects | FetchOkBadBody => Math_floor (src (S p) * 100)
       end;
     power :=
       if (0 <? length (powers (ch_attributes character)))%nat
       then (Math_floor (src q * 30) + 60)%Z
       else (Math_floor (src q * 60) + 20)%Z |}.

Definition tick_if (cond : bool) (w : World) : World :=
  if cond then set_clock_pos (S (clock_pos w)) w else w.

(** The card a successful [awardCard] mints, read off the world it starts
    in: draw 0 is the rarity roll, draw 1 the variant roll, draws 2.. the
    stats, the next one the id suffix; clock reading 0 goes into the id,
    reading 1 is [unlockedAt]. *)
Definition minted_card (character : Character) (cid : string) (score : Q)
    (w : World) : CharacterCard :=
  let rarity' := (determineRarity score w).1 in
  let o := fetch_src w (fetch_pos w) in
  {| card_id :=
       {| id_character := cid;
          id_now := clock_src w (clock_pos w);
          id_random :=
            rand_src w (if fetch_throws o then 5 + rand_pos w
                        else 4 + rand_pos w)%nat |};
     characterId := cid;
     characterName := ch_name character;
     rarity := rarity';
     serialNumber :=
       (length (filter (fun c => characterId c = cid) (stored w)) + 1)%nat;
     maxSupply := maxSupply_of rarity';
     unlockedAt := clock_src w (S (clock_pos w));
     variant :=
       (determineVariant rarity' (set_rand_pos (S (rand_pos w)) w)).1;
     stats := stats_from character (rand_src w) (2 + rand_pos w)%nat o;
     imageUrl := ch_imageUrl character;
     characterImageUrl :=
       if bool_decide (ch_characterImageUrl character = EmptyString)
       then ch_imageUrl character
       else ch_characterImageUrl character |}.

(** The ids of the achievements an award reports, given the array after the
    push, the rarity drawn and the score. *)
Definition fired_ids (collection : list CharacterCard) (rarity' : CardRarity)
    (score : Q) : list string :=
  (if (length collection =? 1)%nat then ["first-card"] else []) ++
  (if (length collection =? 10)%nat then ["collector"] else []) ++
  (if bool_decide (rarity' = legendary) &&
      (length (filter (fun c => rarity c = legendary) collection) =? 1)%nat
   then ["legendary-pull"] else []) ++
  (if Qeq_bool score 100 then ["perfect-game"] else []).

Definition award_post (character : Character) (cid : string)
    (guessTime cluesUsed wrongAttempts : Q) (isWon : option bool)
    (w : World) (reward : CardReward) (w' : World) : Prop :=
  let score :=
    calculatePerformanceScore guessTime cluesUsed wrongAttempts isWon in
  card reward = minted_card character cid score w /\
  perf_score (performance reward) = score /\
  isFirstTime reward
  = (length (filter (fun c => characterId c = cid) (stored w)) =? 0)%nat /\
  map ach_id (unlockedAchievements reward)
  = fired_ids (stored w ++ [card reward]) (rarity (card reward)) score /\
  cardCollections w'
  = <["default" := stored w ++ [card reward]]> (cardCollections w) /\
  rand_src w' = rand_src w /\
  rand_pos w'
  = (if fetch_throws (fetch_src w (fetch_pos w)) then 6 + rand_pos w
     else 5 + rand_pos w)%nat /\
  clock_src w' = clock_src w /\
  fetch_src w' = fetch_src w /\
  fetch_pos w' = S (fetch_pos w).

(** The cards of character [cid] in a list. *)
Definition cards_of (cid : string) (l : list CharacterCard)
  : list CharacterCard :=
  filter (fun c => characterId c = cid) l.

(** The cards a run minted, oldest first. *)
Definition minted (rs : list Response) : list CharacterCard :=
  map card (rewards_of rs).

(** The run of the scenarios: three awards in a fresh process, the first and
    the third for the same character. *)
Definition three_awards : list Request :=
  [ PostAwardCard (award_request "spider-man" 5 0 0 true);
    PostAwardCard (award_request "iron-man" 30 2 3 true);
    PostAwardCard (award_request "spider-man" 12 1 0 true) ].

(** Ten perfect games in a fresh process whose every draw is 0.5: each card
    is legendary. *)
Definition ten_awards : list Request :=
  replicate 10 (PostAwardCard (award_request "spider-man" 0 0 0 true)).

(** A request with every field but [isWon]. *)
Definition request_without_isWon : AwardCardRequest :=
  {| req_characterId := Some "spider-man"; req_guessTime := Some 5%Q;
     req_cluesUsed := Some 0%Q; req_wrongAttempts := Some 0%Q;
     req_isWon := None |}.

(** The sequence of the repository's API test script: two awards, then the
    collection, then the achievements. *)
Definition script_requests : list Request :=
  [ PostAwardCard (award_request "spider-man" 5 0 0 true);
    PostAwardCard (award_request "iron-man" 30 2 3 true);
    GetCollection;
    GetAchievements ].

(** [unlockedAt] of the entry [id] of an achievements reply. *)
Definition reported_unlockedAt (id : string) (r : Response) : option Z :=
  match r with
  | AchievementsReply l =>
      a ← List.find (fun a => bool_decide (ach_id a = id)) l; ach_unlockedAt a
  | _ => None
  end.

(** ** Consumers of the replies in the client *)

(** [performanceGrade] of [CardRewardModal.tsx], computed from
    [reward.performance.score]. *)
Definition performanceGrade (score : Q) : string :=
  if Qgeb score 95 then "S"
  else if Qgeb score 85 then "A"
  else if Qgeb score 75 then "B"
  else if Qgeb score 65 then "C"
  else if Qgeb score 50 then "D"
  else "F".

(** [selectedRarity] of the collection page: a rarity or ["all"]. *)
Inductive RarityFilter :=
| AllRarities
| OnlyRarity (r : CardRarity).

(** [filteredCards] of the collection page; [None] while no collection has
    been fetched ([collection?.cards.filter(..)]). *)
Definition filteredCards (collection : option CardCollection)
    (selectedRarity : RarityFilter) : option (list CharacterCard) :=
  (fun c =>
     List.filter
       (fun card =>
          match selectedRarity with
          | AllRarities => true
          | OnlyRarity r => bool_decide (rarity card = r)
          end)
       (cards c)) <$> collection.

(** One entry of [rarityStats] of the collection page:
    [collection?.rarityCount[r] || 0]. *)
Definition rarityStats (collection : option CardCollection) (r : CardRarity)
  : nat :=
  default 0%nat (collection ≫= fun c => rarityCount c !! r).

(** ** Predicates of the further properties *)

(** Newest first: no card is followed by a newer one. *)
Definition newest_first_sorted (l : list CharacterCard) : Prop :=
  StronglySorted (fun a b => (unlockedAt b <= unlockedAt a)%Z) l.

(** Each card's serial number is at most the number of stored cards of its
    character, and no two cards of a character share a serial number. *)
Definition serials_consistent (l : list CharacterCard) : Prop :=
  NoDup (map (fun c => (characterId c, serialNumber c)) l) /\
  forall c, c ∈ l ->
    (1 <= serialNumber c <= length (cards_of (characterId c) l))%nat.

(** Every card belongs to a character of the catalog. *)
Definition cards_in_catalog (CHARACTERS : list Character)
    (l : list CharacterCard) : Prop :=
  forall c, c ∈ l -> characterId c ∈ map ch_id CHARACTERS.

(** The achievements [awardCard] pushes, with their timestamps: [clock] is
    the clock and [t] the index of its next reading. *)
Definition event_achievements (collection : list CharacterCard)
    (rarity' : CardRarity) (score : Q) (clock : nat -> Z) (t : nat)
  : list Achievement :=
  let c1 := (length collection =? 1)%nat in
  let c2 := (length collection =? 10)%nat in
  let c3 := bool_decide (rarity' = legendary) &&
            (length (filter (fun c => rarity c = legendary) collection)
             =? 1)%nat in
  let c4 := Qeq_bool score 100 in
  let t1 := if c1 then S t else t in
  let t2 := if c2 then S t1 else t1 in
  let t3 := if c3 then S t2 else t2 in
  (if c1 then [first_card (clock t)] else []) ++
  (if c2 then [collector (clock t1)] else []) ++
  (if c3 then [legendary_pull (clock t2)] else []) ++
  (if c4 then [perfect_game (clock t3)] else []).

(** Every stat of the card is in [0, 100]. *)
Definition stats_ok (c : CharacterCard) : Prop :=
  (0 <= popularity (stats c) <= 100)%Z /\
  (0 <= difficulty (stats c) <= 100)%Z /\
  (0 <= power (stats c) <= 100)%Z.

(** Every successful answer of the difficulty service carries a score in
    [0, 100], as its contract says. *)
Definition oracle_scores_valid (w : World) : Prop :=
  forall n s, fetch_src w n = FetchOk s -> (0 <= s <= 100)%Q.

(** The achievement [id] is listed as unlocked: it carries a timestamp. *)
Definition unlocked_in (achievements : list Achievement) (id : string)
  : Prop :=
  exists a, a ∈ achievements /\ ach_id a = id /\ is_Some (ach_unlockedAt a).

(** The clock never runs backwards. *)
Definition clock_monotone (w : World) : Prop :=
  forall i j, (i <= j)%nat -> (clock_src w i <= clock_src w j)%Z.

(** * Properties *)

(** ** Comparisons and rounding *)

Lemma Qltb_true (x y : Q) : Qltb x y = true <-> (x < y)%Q.
Proof.
  unfold Qltb. rewrite negb_true_iff, <- not_true_iff_false, Qle_bool_iff.
  split; [apply Qnot_le_lt | apply Qlt_not_le].
Qed.

Lemma Qltb_false (x y : Q) : Qltb x y = false <-> (y <= x)%Q.
Proof. unfold Qltb. rewrite negb_false_iff. apply Qle_bool_iff. Qed.

Lemma Qle_bool_false (x y : Q) : Qle_bool x y = false <-> (y < x)%Q.
Proof.
  rewrite <- not_true_iff_false, Qle_bool_iff.
  split; [apply Qnot_le_lt | apply Qlt_not_le].
Qed.

(** Case split on every comparison in the goal, keeping the order fact. *)
Ltac split_comparisons :=
  repeat match goal with
  | |- context [Qltb ?a ?b] =>
      let H := fresh "Hlt" in
      destruct (Qltb a b) eqn:H;
      [apply Qltb_true in H | apply Qltb_false in H]
  | |- context [Qle_bool ?a ?b] =>
      let H := fresh "Hle" in
      destruct (Qle_bool a b) eqn:H;
      [apply Qle_bool_iff in H | apply Qle_bool_false in H]
  end.

(** A draw [r] in [0, 1) scaled by [n] and floored lands in [0, n). *)
Lemma floor_scaled_range (r : Q) (n : Z) :
  (0 < n)%Z -> (0 <= r)%Q -> (r < 1)%Q ->
  (0 <= Math_floor (r * inject_Z n) < n)%Z.
Proof.
  intros Hn H0 H1. unfold Math_floor.
  assert (Hn' : (inject_Z 0 < inject_Z n)%Q) by (rewrite <- Zlt_Qlt; exact Hn).
  change (inject_Z 0) with 0%Q in Hn'.
  split.
  - change 0%Z with (Qfloor 0). apply Qfloor_resp_le.
    apply Qmult_le_0_compat; [exact H0 | apply Qlt_le_weak, Hn'].
  - rewrite Zlt_Qlt.
    apply Qle_lt_trans with (r * inject_Z n)%Q; [apply Qfloor_le |].
    apply Qlt_le_trans with (1 * inject_Z n)%Q.
    + apply Qmult_lt_compat_r; assumption.
    + rewrite Qmult_1_l. apply Qle_refl.
Qed.

(** ** C1: the performance score *)

(** C1.  [calculatePerformanceScore] returns exactly 0 when [isWon] is false;
    when [isWon] is true it returns
    max(0, min(100, 100 - min(guessTime, 30)/30*30 - 10*cluesUsed
    - 5*wrongAttempts)); and for valid inputs (non-negative [guessTime],
    [cluesUsed] in 0..3, non-negative [wrongAttempts]) the result lies in
    [0, 100]. *)
Theorem calculatePerformanceScore_spec
    (guessTime cluesUsed wrongAttempts : Q) (isWon : bool) :
  (isWon = false ->
   calculatePerformanceScore guessTime cluesUsed wrongAttempts (Some isWon)
   = 0%Q) /\
  (isWon = true ->
   (calculatePerformanceScore guessTime cluesUsed wrongAttempts (Some isWon)
    == score_formula guessTime cluesUsed wrongAttempts)%Q) /\
  ((0 <= guessTime)%Q -> (0 <= cluesUsed <= 3)%Q -> (0 <= wrongAttempts)%Q ->
   (0 <= calculatePerformanceScore guessTime cluesUsed wrongAttempts
           (Some isWon) <= 100)%Q).
Proof.
  split; [| split].
  - intros ->. reflexivity.
  - intros ->. unfold calculatePerformanceScore, score_formula; simpl is_falsy.
    cbv zeta iota.
    apply Q.max_compat; [reflexivity |].
    apply Q.min_compat; [reflexivity |].
    rewrite (Q.min_comm 30 guessTime). ring.
  - intros _ _ _. unfold calculatePerformanceScore.
    destruct (is_falsy (Some isWon)).
    + split; [apply Qle_refl | discriminate].
    + cbv zeta. split.
      * apply Q.le_max_l.
      * apply Q.max_lub; [discriminate | apply Q.le_min_l].
Qed.

(** The pathological input of the specification: 10000 seconds, 3 clues, 50
    wrong attempts. *)
Lemma calculatePerformanceScore_spec_witness :
  calculatePerformanceScore 10000 3 50 (Some false) = 0%Q /\
  (calculatePerformanceScore 10000 3 50 (Some true)
   == score_formula 10000 3 50)%Q /\
  (0 <= calculatePerformanceScore 10000 3 50 (Some true) <= 100)%Q.
Proof.
  split; [| split].
  - apply (calculatePerformanceScore_spec 10000 3 50 false). reflexivity.
  - apply (calculatePerformanceScore_spec 10000 3 50 true). reflexivity.
  - apply (calculatePerformanceScore_spec 10000 3 50 true).
    + discriminate.
    + split; discriminate.
    + discriminate.
Defined.

(** ** C2: the rarity draw *)

Lemma determineRarity_draws_once (performanceScore : Q) (w : World) :
  (determineRarity performanceScore w).2 = set_rand_pos (S (rand_pos w)) w.
Proof.
  unfold determineRarity, Qgeb, bind, Math_random, ret.
  split_comparisons; reflexivity.
Qed.

(** C2.  [determineRarity] reads exactly one random number, scales it to a
    roll in [0, 100), and returns the first tier, in the order mythic,
    legendary, epic, rare, common, whose cumulative threshold the roll falls
    under, with the weights of the score's bucket. *)
Theorem determineRarity_weighted (performanceScore : Q) (w : World) :
  rng_valid w ->
  let roll := (rand_src w (rand_pos w) * 100)%Q in
  (0 <= roll)%Q /\ (roll < 100)%Q /\
  determineRarity performanceScore w =
    (pick_cumulative roll 0 (rarity_weights performanceScore),
     set_rand_pos (S (rand_pos w)) w).
Proof.
  intros Hrng roll. destruct (Hrng (rand_pos w)) as [H0 H1].
  assert (Hroll : (0 <= roll)%Q /\ (roll < 100)%Q) by (subst roll; split; lra).
  destruct Hroll as [Hr0 Hr1].
  split; [exact Hr0 | split; [exact Hr1 |]].
  unfold determineRarity, rarity_weights, Qgeb, bind, Math_random, ret.
  subst roll.
  destruct (Qle_bool 95 performanceScore);
    [| destruct (Qle_bool 80 performanceScore);
       [| destruct (Qle_bool 60 performanceScore);
          [| destruct (Qle_bool 40 performanceScore)]]];
    cbn [pick_cumulative];
    split_comparisons; try reflexivity; exfalso; lra.
Qed.

(** At a perfect score and a first draw of 0.1 the roll is 10: mythic. *)
Lemma determineRarity_weighted_witness :
  rng_valid (fresh_world (1 # 10) FetchNotOk) /\
  determineRarity 100 (fresh_world (1 # 10) FetchNotOk)
  = (mythic, set_rand_pos 1 (fresh_world (1 # 10) FetchNotOk)).
Proof.
  assert (H : rng_valid (fresh_world (1 # 10) FetchNotOk)).
  { intros n. split; [discriminate | reflexivity]. }
  split; [exact H |].
  destruct (determineRarity_weighted 100 _ H) as (_ & _ & ->).
  reflexivity.
Defined.

(** ** How each step changes the world *)

Lemma determineVariant_draws_once (r : CardRarity) (w : World) :
  (determineVariant r w).2 = set_rand_pos (S (rand_pos w)) w.
Proof.
  unfold determineVariant, bind, Math_random, ret.
  destruct r; split_comparisons; reflexivity.
Qed.

Lemma calculateCharacterStats_found CHARACTERS cid character (w : World) :
  find_character CHARACTERS cid = Some character ->
  let o := fetch_src w (fetch_pos w) in
  calculateCharacterStats CHARACTERS cid w =
    (stats_from character (rand_src w) (rand_pos w) o,
     set_rand_pos
       (if fetch_throws o then 3 + rand_pos w else 2 + rand_pos w)%nat
       (set_errors_logged
          (if fetch_throws o then S (errors_logged w) else errors_logged w)
          (set_fetch_pos (S (fetch_pos w)) w))).
Proof.
  intros Hfind o. unfold calculateCharacterStats. rewrite Hfind.
  unfold stats_from, bind, Math_random, fetch_difficulty, console_error, ret.
  subst o.
  destruct (includes _ _);
    cbn [rand_src rand_pos fetch_src fetch_pos set_rand_pos];
    destruct (fetch_src w (fetch_pos w));
    destruct (0 <? length (powers (ch_attributes character)))%nat;
    reflexivity.
Qed.

Lemma calculateCharacterStats_missing CHARACTERS cid (w : World) :
  find_character CHARACTERS cid = None ->
  calculateCharacterStats CHARACTERS cid w =
    ({| popularity := 50; difficulty := 50; power := 50 |}, w).
Proof. intros Hfind. unfold calculateCharacterStats. now rewrite Hfind. Qed.

Lemma push_if_run cond mk unlocked (w : World) :
  push_if cond mk unlocked w =
    (unlocked ++ (if cond then [mk (clock_src w (clock_pos w))] else []),
     tick_if cond w).
Proof.
  unfold push_if, tick_if, bind, Date_now, ret.
  destruct cond; [reflexivity | now rewrite app_nil_r].
Qed.

Lemma getCollection_run (w : World) :
  getCollection "default" w =
    (stored w,
     if bool_decide (is_Some (cardCollections w !! "default")) then w
     else set_cardCollections (<["default" := []]> (cardCollections w)) w).
Proof.
  unfold getCollection, stored. case_bool_decide as Hs; [reflexivity |].
  f_equal. cbn [cardCollections set_cardCollections].
  rewrite lookup_insert_eq. cbn.
  destruct (cardCollections w !! "default") eqn:E; [| reflexivity].
  exfalso. apply Hs. eauto.
Qed.

Lemma tick_if_frame cond (w : World) :
  cardCollections (tick_if cond w) = cardCollections w /\
  rand_src (tick_if cond w) = rand_src w /\
  rand_pos (tick_if cond w) = rand_pos w /\
  clock_src (tick_if cond w) = clock_src w /\
  fetch_src (tick_if cond w) = fetch_src w /\
  fetch_pos (tick_if cond w) = fetch_pos w.
Proof. destruct cond; repeat split. Qed.

Lemma awardCard_success CHARACTERS req cid guessTime cluesUsed wrongAttempts
    character (w : World) :
  req_characterId req = Some cid ->
  req_guessTime req = Some guessTime ->
  req_cluesUsed req = Some cluesUsed ->
  req_wrongAttempts req = Some wrongAttempts ->
  cid <> EmptyString ->
  find_character CHARACTERS cid = Some character ->
  exists reward w',
    awardCard CHARACTERS req w = (AwardSuccess reward, w') /\
    award_post character cid guessTime cluesUsed wrongAttempts (req_isWon req)
      w reward w'.
Proof.
  intros Hcid Hg Hc Hwr Hne Hfind.
  unfold awardCard. rewrite Hcid, Hg, Hc, Hwr.
  rewrite bool_decide_eq_false_2 by exact Hne. rewrite Hfind.
  set (score := calculatePerformanceScore _ _ _ _).
  unfold bind at 1.
  rewrite (surjective_pairing (determineRarity score w)).
  rewrite determineRarity_draws_once.
  set (r := (determineRarity score w).1).
  unfold bind at 1.
  rewrite (surjective_pairing (determineVariant r _)).
  rewrite determineVariant_draws_once.
  set (v := (determineVariant r _).1).
  unfold bind at 1. rewrite getCollection_run.
  set (w3 := if bool_decide (is_Some _) then _ else _).
  assert (Hw3 : stored w3 = stored w /\
                (forall l : list CharacterCard,
                   <["default" := l]> (cardCollections w3)
                   = <["default" := l]> (cardCollections w)) /\
                rand_src w3 = rand_src w /\ rand_pos w3 = S (S (rand_pos w)) /\
                clock_src w3 = clock_src w /\ clock_pos w3 = clock_pos w /\
                fetch_src w3 = fetch_src w /\ fetch_pos w3 = fetch_pos w).
  { subst w3. unfold stored. cbn [cardCollections set_rand_pos].
    case_bool_decide as Hs; cbn; [repeat split |].
    rewrite lookup_insert_eq.
    destruct (cardCollections w !! "default") eqn:E;
      [exfalso; apply Hs; eauto |].
    repeat split. intros l. apply insert_insert_eq. }
  destruct Hw3 as (Hst & Hins & Hrs & Hrp & Hcs & Hcp & Hfs & Hfp).
  change (stored (set_rand_pos (S (rand_pos (set_rand_pos (S (rand_pos w)) w)))
            (set_rand_pos (S (rand_pos w)) w))) with (stored w).
  unfold bind at 1.
  rewrite (calculateCharacterStats_found _ _ _ w3 Hfind).
  rewrite Hrs, Hrp, Hfs, Hfp.
  set (o := fetch_src w (fetch_pos w)).
  unfold bind, Date_now, Math_random, collection_push.
  cbn [clock_src clock_pos rand_src rand_pos set_rand_pos set_clock_pos
       set_errors_logged set_fetch_pos cardCollections set_cardCollections].
  rewrite !push_if_run. unfold ret.
  eexists _, _. split; [reflexivity |].
  unfold award_post. fold score.
  cbn [card performance perf_score isFirstTime unlockedAchievements].
  rewrite Hcs, Hcp, Hrs.
  assert (Hold : default [] (cardCollections w3 !! "default") = stored w)
    by exact Hst.
  rewrite Hold.
  split; [reflexivity |].
  split; [reflexivity |].
  split; [reflexivity |].
  split.
  { unfold fired_ids. cbn [rarity minted_card]. fold r.
    rewrite !map_app.
    repeat match goal with
    | |- context [if ?c then [?a] else []] =>
        lazymatch c with
        | _ => destruct c
        end
    end; reflexivity. }
  repeat match goal with
  | |- context [tick_if ?c ?x] =>
      let H := fresh "Ht" in
      pose proof (tick_if_frame c x) as H;
      destruct H as (-> & -> & -> & -> & -> & ->)
  end.
  cbn [cardCollections rand_src rand_pos clock_src fetch_src fetch_pos
       set_cardCollections].
  repeat split; try assumption; try apply Hins.
  subst o. destruct (fetch_throws _); reflexivity.
Qed.

(** A request that [awardCard] rejects leaves the whole world as it was. *)
Lemma awardCard_cases CHARACTERS req (w : World) :
  (exists status error,
     (status = 400 \/ status = 404)%nat /\
     awardCard CHARACTERS req w = (AwardFailure status error, w)) \/
  (exists cid guessTime cluesUsed wrongAttempts character reward w',
     req_characterId req = Some cid /\
     req_guessTime req = Some guessTime /\
     req_cluesUsed req = Some cluesUsed /\
     req_wrongAttempts req = Some wrongAttempts /\
     cid <> EmptyString /\
     find_character CHARACTERS cid = Some character /\
     awardCard CHARACTERS req w = (AwardSuccess reward, w') /\
     award_post character cid guessTime cluesUsed wrongAttempts
       (req_isWon req) w reward w').
Proof.
  destruct (req_characterId req) as [cid |] eqn:Hcid;
    [destruct (req_guessTime req) as [g |] eqn:Hg;
     [destruct (req_cluesUsed req) as [c |] eqn:Hc;
      [destruct (req_wrongAttempts req) as [wr |] eqn:Hwr |] |] |];
    try (left; exists 400%nat, "Missing required fields";
         split; [now left |];
         unfold awardCard; rewrite Hcid, ?Hg, ?Hc, ?Hwr; reflexivity).
  destruct (decide (cid = EmptyString)) as [-> | Hne].
  { left. exists 400%nat, "Missing required fields". split; [now left |].
    unfold awardCard. now rewrite Hcid, Hg, Hc, Hwr. }
  destruct (find_character CHARACTERS cid) as [character |] eqn:Hfind.
  - right.
    destruct (awardCard_success CHARACTERS req cid g c wr character w)
      as (reward & w' & Hrun & Hpost); try assumption.
    exists cid, g, c, wr, character, reward, w'.
    repeat (split; [first [assumption | reflexivity] |]). assumption.
  - left. exists 404%nat, "Character not found". split; [now right |].
    unfold awardCard. rewrite Hcid, Hg, Hc, Hwr.
    rewrite bool_decide_eq_false_2 by exact Hne. now rewrite Hfind.
Qed.

Lemma awardCard_inv CHARACTERS req (w : World) reward w' :
  awardCard CHARACTERS req w = (AwardSuccess reward, w') ->
  exists cid guessTime cluesUsed wrongAttempts character,
    req_characterId req = Some cid /\
    req_guessTime req = Some guessTime /\
    req_cluesUsed req = Some cluesUsed /\
    req_wrongAttempts req = Some wrongAttempts /\
    cid <> EmptyString /\
    find_character CHARACTERS cid = Some character /\
    award_post character cid guessTime cluesUsed wrongAttempts
      (req_isWon req) w reward w'.
Proof.
  intros Hrun.
  destruct (awardCard_cases CHARACTERS req w)
    as [(st & err & _ & Hfail)
       | (cid & g & c & wr & ch & rw & w1 & H1 & H2 & H3 & H4 & H5 & H6
          & Hok & Hpost)].
  - rewrite Hfail in Hrun. discriminate.
  - rewrite Hok in Hrun. injection Hrun as <- <-.
    exists cid, g, c, wr, ch. repeat (split; [assumption |]). assumption.
Qed.

Lemma award_post_stored character cid g c wr isWon (w : World) reward w' :
  award_post character cid g c wr isWon w reward w' ->
  stored w' = stored w ++ [card reward].
Proof.
  intros (_ & _ & _ & _ & Hstore & _). unfold stored at 1.
  rewrite Hstore, lookup_insert_eq. reflexivity.
Qed.

(** ** Sorting permutes *)

Lemma sort_insert_perm {A} (cmp : A -> A -> Z) (x : A) (l : list A) :
  sort_insert cmp x l ≡ₚ x :: l.
Proof.
  induction l as [| y l IH]; cbn; [reflexivity |].
  destruct (cmp x y <=? 0)%Z; [reflexivity |].
  rewrite IH. apply Permutation_swap.
Qed.

Lemma Array_sort_perm {A} (cmp : A -> A -> Z) (l : list A) :
  Array_sort cmp l ≡ₚ l.
Proof.
  induction l as [| x l IH]; cbn; [reflexivity |].
  rewrite sort_insert_perm. now rewrite IH.
Qed.

Lemma getCardCollection_stored CHARACTERS (w : World) :
  stored (getCardCollection CHARACTERS w).2
  = Array_sort newest_first (stored w).
Proof.
  unfold getCardCollection. unfold bind at 1. rewrite getCollection_run.
  unfold bind, collection_sort, ret, stored.
  cbn [snd cardCollections set_cardCollections].
  rewrite lookup_insert_eq. cbn [default].
  case_bool_decide as Hs; [reflexivity |].
  cbn [cardCollections set_cardCollections]. rewrite lookup_insert_eq.
  destruct (cardCollections w !! "default") eqn:E; [| reflexivity].
  exfalso. apply Hs. eauto.
Qed.

Lemma getAchievements_stored (w : World) :
  stored (getAchievements w).2 = stored w.
Proof.
  unfold getAchievements. unfold bind at 1. rewrite getCollection_run.
  unfold ret, stored. cbn [snd].
  case_bool_decide as Hs; [reflexivity |].
  cbn [cardCollections set_cardCollections]. rewrite lookup_insert_eq.
  destruct (cardCollections w !! "default") eqn:E; [| reflexivity].
  exfalso. apply Hs. eauto.
Qed.

(** ** What a run of requests does to the store *)

Lemma serve_cons CHARACTERS r rs (w : World) :
  serve CHARACTERS (r :: rs) w =
    ((handle CHARACTERS r w).1
       :: (serve CHARACTERS rs (handle CHARACTERS r w).2).1,
     (serve CHARACTERS rs (handle CHARACTERS r w).2).2).
Proof.
  cbn [serve]. unfold bind, ret.
  destruct (handle CHARACTERS r w) as [res w1]. cbn [fst snd].
  destruct (serve CHARACTERS rs w1) as [rest w2]. reflexivity.
Qed.

Lemma rewards_of_cons res rest :
  rewards_of (res :: rest) =
    match reward_of res with
    | Some reward => reward :: rewards_of rest
    | None => rewards_of rest
    end.
Proof. reflexivity. Qed.

(** One request either mints a card, which is pushed at the end of the stored
    array, or leaves the stored array a permutation of what it was. *)
Lemma handle_cases CHARACTERS r (w : World) :
  match reward_of (handle CHARACTERS r w).1 with
  | Some reward =>
      exists req,
        awardCard CHARACTERS req w
        = (AwardSuccess reward, (handle CHARACTERS r w).2) /\
        stored (handle CHARACTERS r w).2 = stored w ++ [card reward]
  | None => stored (handle CHARACTERS r w).2 ≡ₚ stored w
  end.
Proof.
  destruct r as [req | |]; unfold handle, bind, ret.
  - destruct (awardCard CHARACTERS req w) as [[reward | st err] w1] eqn:Hrun;
      cbn [fst snd reward_of].
    + exists req. split; [exact Hrun |].
      destruct (awardCard_inv _ _ _ _ _ Hrun)
        as (cid & g & c & wr & ch & _ & _ & _ & _ & _ & _ & Hpost).
      exact (award_post_stored _ _ _ _ _ _ _ _ _ Hpost).
    + destruct (awardCard_cases CHARACTERS req w)
        as [(st' & err' & _ & Hfail) | (? & ? & ? & ? & ? & ? & ? & H)].
      * rewrite Hfail in Hrun. injection Hrun as _ _ <-. reflexivity.
      * destruct H as (_ & _ & _ & _ & _ & _ & Hok & _).
        rewrite Hok in Hrun. discriminate.
  - pose proof (getCardCollection_stored CHARACTERS w) as Hs.
    destruct (getCardCollection CHARACTERS w) as [res w1].
    cbn [fst snd reward_of] in *. rewrite Hs. apply Array_sort_perm.
  - pose proof (getAchievements_stored w) as Hs.
    destruct (getAchievements w) as [res w1].
    cbn [fst snd reward_of] in *. now rewrite Hs.
Qed.

(** The [k]-th reward of a run was computed by [awardCard] on a store that
    holds what was there at the start and the [k] cards minted before. *)
Lemma serve_nth CHARACTERS rs :
  forall (w : World) k reward,
    rewards_of (serve CHARACTERS rs w).1 !! k = Some reward ->
    exists req wk wk',
      awardCard CHARACTERS req wk = (AwardSuccess reward, wk') /\
      stored wk ≡ₚ
        stored w ++ take k (minted (serve CHARACTERS rs w).1).
Proof.
  induction rs as [| r rs IH]; intros w k reward Hk; [discriminate |].
  rewrite serve_cons in Hk |- *. cbn [fst] in Hk |- *.
  unfold minted in *. rewrite rewards_of_cons in Hk |- *.
  pose proof (handle_cases CHARACTERS r w) as Hh.
  destruct (reward_of (handle CHARACTERS r w).1) as [rw0 |].
  - destruct Hh as (req & Hrun & Hst).
    destruct k as [| k].
    + injection Hk as ->. exists req, w, (handle CHARACTERS r w).2.
      split; [exact Hrun |]. cbn. now rewrite app_nil_r.
    + cbn in Hk. destruct (IH _ _ _ Hk) as (req' & wk & wk' & Hrun' & Hwk).
      exists req', wk, wk'. split; [exact Hrun' |].
      rewrite Hwk, Hst. cbn. now rewrite <- app_assoc.
  - destruct (IH _ _ _ Hk) as (req' & wk & wk' & Hrun' & Hwk).
    exists req', wk, wk'. split; [exact Hrun' |].
    now rewrite Hwk, Hh.
Qed.

(** ** C7: serial numbers and supply *)

Lemma maxSupply_of_table (r : CardRarity) : maxSupply_of r = supply_table r.
Proof. destruct r; reflexivity. Qed.

Lemma cards_of_perm cid (l l' : list CharacterCard) :
  l ≡ₚ l' -> length (cards_of cid l) = length (cards_of cid l').
Proof. intros H. unfold cards_of. now rewrite H. Qed.

Lemma serve_serials CHARACTERS cid rs :
  forall w : World,
    map serialNumber (cards_of cid (minted (serve CHARACTERS rs w).1))
    = seq (length (cards_of cid (stored w)) + 1)
          (length (cards_of cid (minted (serve CHARACTERS rs w).1))).
Proof.
  induction rs as [| r rs IH]; intros w; [reflexivity |].
  rewrite serve_cons. cbn [fst]. unfold minted in *.
  rewrite rewards_of_cons.
  pose proof (handle_cases CHARACTERS r w) as Hh.
  specialize (IH (handle CHARACTERS r w).2).
  destruct (reward_of (handle CHARACTERS r w).1) as [rw0 |].
  - destruct Hh as (req & Hrun & Hst).
    destruct (awardCard_inv _ _ _ _ _ Hrun)
      as (cid0 & g & c & wr & ch & _ & _ & _ & _ & _ & _ & Hpost).
    destruct Hpost as (Hcard & _).
    rewrite Hst in IH. unfold cards_of in *.
    rewrite filter_app, length_app in IH.
    cbn [map]. rewrite filter_cons. rewrite filter_cons, filter_nil in IH.
    assert (Hc : characterId (card rw0) = cid0) by now rewrite Hcard.
    assert (Hs : serialNumber (card rw0)
                 = (length (filter (fun c => characterId c = cid0) (stored w))
                    + 1)%nat) by now rewrite Hcard.
    destruct (decide (characterId (card rw0) = cid)) as [Heq | Hne].
    + cbn [map length seq]. rewrite IH. f_equal.
      * rewrite Hs. assert (cid0 = cid) as -> by congruence. reflexivity.
      * cbn [length]. f_equal. lia.
    + rewrite IH. cbn [length]. f_equal. lia.
  - rewrite IH. f_equal. f_equal. now apply cards_of_perm.
Qed.

Lemma awardCard_serial CHARACTERS req (w : World) reward w' :
  awardCard CHARACTERS req w = (AwardSuccess reward, w') ->
  serialNumber (card reward)
  = (length (cards_of (characterId (card reward)) (stored w)) + 1)%nat /\
  maxSupply (card reward) = supply_table (rarity (card reward)).
Proof.
  intros Hrun.
  destruct (awardCard_inv _ _ _ _ _ Hrun)
    as (cid & g & c & wr & ch & _ & _ & _ & _ & _ & _ & Hcard & _).
  rewrite Hcard. cbn [serialNumber characterId maxSupply rarity minted_card].
  split; [reflexivity | apply maxSupply_of_table].
Qed.

(** C7.  In every run of requests, the serial numbers minted for one
    character are, in order, n+1, n+2, ... where n is the number of cards of
    that character stored at the start: 1, 2, 3, ... from an empty store.
    Each minted card has the serial number (cards of its character owned
    when it is minted) + 1, and the [maxSupply] of its rarity: mythic 100,
    legendary 500, epic 1000, rare 5000, common 10000. *)
Theorem serial_numbers_count_up CHARACTERS rs (w : World) :
  let cards := minted (serve CHARACTERS rs w).1 in
  (forall cid,
     map serialNumber (cards_of cid cards)
     = seq (length (cards_of cid (stored w)) + 1)
           (length (cards_of cid cards))) /\
  (forall k c,
     cards !! k = Some c ->
     serialNumber c
     = (length (cards_of (characterId c) (stored w ++ take k cards)) + 1)%nat
     /\ maxSupply c = supply_table (rarity c)).
Proof.
  intros cards. split.
  - intros cid. apply serve_serials.
  - intros k c Hk. subst cards. unfold minted in Hk.
    rewrite list_lookup_fmap in Hk.
    destruct (rewards_of (serve CHARACTERS rs w).1 !! k) as [reward |] eqn:Hrw;
      [| discriminate].
    injection Hk as <-.
    destruct (serve_nth _ _ _ _ _ Hrw) as (req & wk & wk' & Hrun & Hwk).
    destruct (awardCard_serial _ _ _ _ _ Hrun) as [Hserial Hsupply].
    split; [| exact Hsupply].
    rewrite Hserial. f_equal. now apply cards_of_perm.
Qed.

Lemma serial_numbers_count_up_witness :
  let w := fresh_world (1 # 10) (FetchOk 42) in
  let cards := minted (serve demo_catalog three_awards w).1 in
  map serialNumber (cards_of "spider-man" cards) = [1; 2]%nat /\
  map serialNumber (cards_of "iron-man" cards) = [1]%nat /\
  (exists c, cards !! 2%nat = Some c /\ serialNumber c = 2%nat /\
             maxSupply c = supply_table (rarity c)).
Proof.
  intros w cards.
  destruct (serial_numbers_count_up demo_catalog three_awards w)
    as [Hseq Hnth].
  fold cards in Hseq, Hnth.
  split; [| split].
  - rewrite (Hseq "spider-man"). vm_compute. reflexivity.
  - rewrite (Hseq "iron-man"). vm_compute. reflexivity.
  - destruct (cards !! 2%nat) as [c |] eqn:Hc; [| vm_compute in Hc; discriminate].
    exists c. split; [reflexivity |].
    destruct (Hnth 2%nat c Hc) as [-> ->]. split; [| reflexivity].
    assert (Hid : characterId c = "spider-man")
      by (vm_compute in Hc; injection Hc as <-; reflexivity).
    rewrite Hid. vm_compute. reflexivity.
Defined.

(** ** C8 and C10: the achievements an award reports *)

Lemma elem_of_if_singleton (b : bool) (x a : string) :
  x ∈ (if b then [a] else []) <-> x = a /\ b = true.
Proof.
  destruct b.
  - rewrite list_elem_of_singleton. tauto.
  - split; [intros H; inversion H | intros [_ H]; discriminate].
Qed.

Lemma elem_of_fired_ids (id : string) (collection : list CharacterCard)
    (r : CardRarity) (score : Q) :
  id ∈ fired_ids collection r score <->
  (id = "first-card" /\ length collection = 1%nat) \/
  (id = "collector" /\ length collection = 10%nat) \/
  (id = "legendary-pull" /\ r = legendary /\
   length (filter (fun c => rarity c = legendary) collection) = 1%nat) \/
  (id = "perfect-game" /\ (score == 100)%Q).
Proof.
  unfold fired_ids.
  rewrite !elem_of_app, !elem_of_if_singleton, andb_true_iff,
    !Nat.eqb_eq, bool_decide_eq_true, Qeq_bool_iff.
  tauto.
Qed.

Lemma fired_ids_spec (collection : list CharacterCard) (r : CardRarity)
    (score : Q) :
  let ids := fired_ids collection r score in
  ("first-card" ∈ ids <-> length collection = 1%nat) /\
  ("collector" ∈ ids <-> length collection = 10%nat) /\
  ("legendary-pull" ∈ ids <->
     r = legendary /\
     length (filter (fun c => rarity c = legendary) collection) = 1%nat) /\
  ("perfect-game" ∈ ids <-> (score == 100)%Q) /\
  (forall id, id ∈ ids ->
     id ∈ ["first-card"; "collector"; "legendary-pull"; "perfect-game"]).
Proof.
  cbv zeta. rewrite !elem_of_fired_ids.
  split; [| split; [| split; [| split]]].
  - split; [intros [[_ H] | [[H _] | [[H _] | [H _]]]] | intros H];
      first [exact H | discriminate H | now left].
  - split; [intros [[H _] | [[_ H] | [[H _] | [H _]]]] | intros H];
      first [exact H | discriminate H | now (right; left)].
  - split; [intros [[H _] | [[H _] | [[_ H] | [H _]]]] | intros H];
      first [exact H | discriminate H | now (right; right; left)].
  - split; [intros [[H _] | [[H _] | [[H _] | [_ H]]]] | intros H];
      first [exact H | discriminate H | now (right; right; right)].
  - intros id. rewrite elem_of_fired_ids.
    intros [[-> _] | [[-> _] | [[-> _] | [-> _]]]];
      repeat first [apply list_elem_of_here | apply list_elem_of_further].
Qed.

Lemma legendary_first (old : list CharacterCard) (c : CharacterCard) :
  rarity c = legendary ->
  length (filter (fun c => rarity c = legendary) (old ++ [c])) = 1%nat <->
  (forall c', c' ∈ old -> rarity c' <> legendary).
Proof.
  intros Hc. rewrite filter_app, length_app, filter_cons_True by exact Hc.
  rewrite filter_nil. cbn [length].
  split.
  - intros Hlen c' Hin Hleg.
    assert (Hmem : c' ∈ filter (fun c => rarity c = legendary) old)
      by (apply list_elem_of_filter; split; assumption).
    destruct (filter (fun c => rarity c = legendary) old); [| cbn in Hlen; lia].
    inversion Hmem.
  - intros Hnone.
    destruct (filter (fun c => rarity c = legendary) old) as [| x l] eqn:E;
      [reflexivity |].
    assert (Hmem : x ∈ filter (fun c => rarity c = legendary) old)
      by (rewrite E; left).
    apply list_elem_of_filter in Hmem as [Hx Hin].
    exfalso. exact (Hnone x Hin Hx).
Qed.

Lemma awardCard_fired CHARACTERS req (w : World) reward w' :
  awardCard CHARACTERS req w = (AwardSuccess reward, w') ->
  let ids := map ach_id (unlockedAchievements reward) in
  ("first-card" ∈ ids <-> (length (stored w) + 1 = 1)%nat) /\
  ("collector" ∈ ids <-> (length (stored w) + 1 = 10)%nat) /\
  ("legendary-pull" ∈ ids <->
     rarity (card reward) = legendary /\
     forall c, c ∈ stored w -> rarity c <> legendary) /\
  ("perfect-game" ∈ ids <-> (perf_score (performance reward) == 100)%Q) /\
  (forall id, id ∈ ids ->
     id ∈ ["first-card"; "collector"; "legendary-pull"; "perfect-game"]).
Proof.
  intros Hrun ids.
  destruct (awardCard_inv _ _ _ _ _ Hrun)
    as (cid & g & c & wr & ch & _ & _ & _ & _ & _ & _ & Hpost).
  destruct Hpost as (_ & Hscore & _ & Hids & _).
  subst ids. rewrite Hids, Hscore.
  destruct (fired_ids_spec (stored w ++ [card reward]) (rarity (card reward))
              (calculatePerformanceScore g c wr (req_isWon req)))
    as (H1 & H10 & HL & HP & Hall).
  rewrite length_app in H1, H10. cbn [length] in H1, H10.
  split; [exact H1 |]. split; [exact H10 |].
  split; [| split; [exact HP | exact Hall]].
  rewrite HL. split.
  - intros [Hleg Hlen]. split; [exact Hleg |].
    apply (legendary_first _ _ Hleg). exact Hlen.
  - intros [Hleg Hnone]. split; [exact Hleg |].
    apply (legendary_first _ _ Hleg). exact Hnone.
Qed.

(** C8.  The [k]-th reward of a run of requests reports [first-card] iff the
    length of the stored collection right after its card is pushed is
    exactly 1, [collector] iff that length is exactly 10, [legendary-pull]
    iff its card is legendary and no card owned before it is, and
    [perfect-game] iff its score is exactly 100.  The cards owned before it
    are those stored when the run starts and the [k] cards minted earlier in
    the run, so each of the first three fires on the one award that crosses
    its threshold. *)
Theorem achievements_fire_on_crossing CHARACTERS rs (w : World) k reward :
  rewards_of (serve CHARACTERS rs w).1 !! k = Some reward ->
  let owned := stored w ++ take k (minted (serve CHARACTERS rs w).1) in
  let total := (length owned + 1)%nat in
  let ids := map ach_id (unlockedAchievements reward) in
  (exists req wk wk',
     awardCard CHARACTERS req wk = (AwardSuccess reward, wk') /\
     stored wk ≡ₚ owned /\
     stored wk' = stored wk ++ [card reward] /\
     length (stored wk') = total) /\
  ("first-card" ∈ ids <-> total = 1%nat) /\
  ("collector" ∈ ids <-> total = 10%nat) /\
  ("legendary-pull" ∈ ids <->
     rarity (card reward) = legendary /\
     forall c, c ∈ owned -> rarity c <> legendary) /\
  ("perfect-game" ∈ ids <-> (perf_score (performance reward) == 100)%Q).
Proof.
  intros Hk owned total ids.
  destruct (serve_nth _ _ _ _ _ Hk) as (req & wk & wk' & Hrun & Hwk).
  fold owned in Hwk.
  destruct (awardCard_fired _ _ _ _ _ Hrun) as (H1 & H10 & HL & HP & _).
  fold ids in H1, H10, HL, HP.
  assert (Hlen : length (stored wk) = length owned)
    by (apply Permutation_length; exact Hwk).
  rewrite Hlen in H1, H10. fold total in H1, H10.
  split.
  { destruct (awardCard_inv _ _ _ _ _ Hrun)
      as (cid & g & c & wr & ch & _ & _ & _ & _ & _ & _ & Hpost).
    pose proof (award_post_stored _ _ _ _ _ _ _ _ _ Hpost) as Hst.
    exists req, wk, wk'. split; [exact Hrun |]. split; [exact Hwk |].
    split; [exact Hst |].
    rewrite Hst, length_app, Hlen. reflexivity. }
  split; [exact H1 |]. split; [exact H10 |]. split; [| exact HP].
  rewrite HL. split; intros [Hleg Hnone]; (split; [exact Hleg |]);
    intros c Hc; apply Hnone.
  - now rewrite Hwk.
  - now rewrite <- Hwk.
Qed.

Lemma achievements_fire_on_crossing_witness :
  let w := fresh_world (1 # 2) FetchNotOk in
  let ids k :=
    map ach_id <$>
      (unlockedAchievements <$>
         rewards_of (serve demo_catalog ten_awards w).1 !! k) in
  ids 0%nat = Some ["first-card"; "legendary-pull"; "perfect-game"] /\
  ids 1%nat = Some ["perfect-game"] /\
  ids 9%nat = Some ["collector"; "perfect-game"] /\
  (exists reward,
     rewards_of (serve demo_catalog ten_awards w).1 !! 9%nat = Some reward /\
     "collector" ∈ map ach_id (unlockedAchievements reward) /\
     ~ "first-card" ∈ map ach_id (unlockedAchievements reward) /\
     ~ "legendary-pull" ∈ map ach_id (unlockedAchievements reward)).
Proof.
  intros w ids.
  split; [vm_compute; reflexivity |].
  split; [vm_compute; reflexivity |].
  split; [vm_compute; reflexivity |].
  destruct (rewards_of (serve demo_catalog ten_awards w).1 !! 9%nat)
    as [reward |] eqn:Hk; [| vm_compute in Hk; discriminate].
  exists reward. split; [reflexivity |].
  destruct (achievements_fire_on_crossing demo_catalog ten_awards w 9 reward Hk)
    as (_ & H1 & H10 & HL & _).
  split; [| split].
  - apply H10. vm_compute. reflexivity.
  - intros Hin. apply H1 in Hin. vm_compute in Hin. discriminate.
  - intros Hin. apply HL in Hin as [_ Hnone].
    assert (Hfirst : exists c, minted (serve demo_catalog ten_awards w).1 !! 0%nat
                               = Some c /\ rarity c = legendary).
    { vm_compute. eexists. split; reflexivity. }
    destruct Hfirst as (c & Hc & Hleg).
    apply (Hnone c); [| exact Hleg].
    apply elem_of_app. right.
    apply (list_elem_of_lookup_2 _ 0%nat).
    rewrite lookup_take_lt by lia. exact Hc.
Defined.

(** C10.  No award reports [mythic-hunter] or [master-collector], whatever
    it mints and whatever the collection holds; the two appear only in the
    list [getAchievements] recomputes from the stored collection, as its
    third and fifth entries. *)
Theorem awards_never_report_mythic_or_master CHARACTERS :
  (forall req (w : World) reward w',
     awardCard CHARACTERS req w = (AwardSuccess reward, w') ->
     ~ "mythic-hunter" ∈ map ach_id (unlockedAchievements reward) /\
     ~ "master-collector" ∈ map ach_id (unlockedAchievements reward)) /\
  (forall w : World,
     exists a1 a2 master a4 hunter,
       (getAchievements w).1 = [a1; a2; master; a4; hunter] /\
       ach_id master = "master-collector" /\
       ach_progress master = Nat.min (length (stored w)) 50 /\
       ach_unlockedAt master = unlockedAt_nth (stored w) 50 /\
       ach_id hunter = "mythic-hunter" /\
       ach_progress hunter
       = Nat.min (length (filter (fun c => rarity c = mythic) (stored w))) 1 /\
       ach_unlockedAt hunter = unlockedAt_first (stored w) mythic).
Proof.
  split.
  - intros req w reward w' Hrun.
    destruct (awardCard_fired _ _ _ _ _ Hrun) as (_ & _ & _ & _ & Hall).
    split; intros Hin; apply Hall in Hin;
      repeat (apply elem_of_cons in Hin as [Hin | Hin];
              [discriminate Hin |]);
      inversion Hin.
  - intros w. unfold getAchievements, bind, ret.
    rewrite getCollection_run. cbn [fst].
    eexists _, _, _, _, _. split; [reflexivity |]. repeat split.
Qed.

(** A perfect-bucket score with a first draw of 0.1 mints the first mythic
    card; the award reports [first-card] only. *)
Lemma awards_never_report_mythic_or_master_witness :
  let w := fresh_world (1 # 10) (FetchOk 42) in
  exists reward w',
    awardCard demo_catalog (award_request "spider-man" 5 0 0 true) w
    = (AwardSuccess reward, w') /\
    rarity (card reward) = mythic /\
    ~ "mythic-hunter" ∈ map ach_id (unlockedAchievements reward) /\
    ~ "master-collector" ∈ map ach_id (unlockedAchievements reward).
Proof.
  intros w.
  destruct (awardCard demo_catalog (award_request "spider-man" 5 0 0 true) w)
    as [[reward | st err] w'] eqn:Hrun; [| vm_compute in Hrun; discriminate].
  exists reward, w'. split; [reflexivity |].
  split.
  - vm_compute in Hrun. injection Hrun as <- _. reflexivity.
  - exact (proj1 (awards_never_report_mythic_or_master demo_catalog)
             _ _ _ _ Hrun).
Defined.

(** ** C9: popularity *)

Lemma universe_never_popular (u : Universe) :
  includes popularUniverses (universe_str u) = false.
Proof. destruct u; reflexivity. Qed.

(** C9.  No value of the [universe] type is in the allow-list, so for every
    catalog character the popularity is drawn by the other branch,
    [Math.floor(Math.random() * 50) + 30], and lies in [30, 80). *)
Theorem popularity_range CHARACTERS cid character (w : World) :
  rng_valid w ->
  find_character CHARACTERS cid = Some character ->
  includes popularUniverses (universe_str (ch_universe character)) = false /\
  popularity (calculateCharacterStats CHARACTERS cid w).1
  = (Math_floor (rand_src w (rand_pos w) * 50) + 30)%Z /\
  (30 <= popularity (calculateCharacterStats CHARACTERS cid w).1 < 80)%Z.
Proof.
  intros Hrng Hfind.
  pose proof (universe_never_popular (ch_universe character)) as Hu.
  split; [exact Hu |].
  rewrite (calculateCharacterStats_found _ _ _ _ Hfind).
  cbn [fst popularity stats_from]. rewrite Hu.
  split; [reflexivity |].
  destruct (Hrng (rand_pos w)) as [H0 H1].
  pose proof (floor_scaled_range (rand_src w (rand_pos w)) 50 eq_refl H0 H1)
    as Hfloor.
  change (inject_Z 50) with 50%Q in Hfloor. lia.
Qed.

Lemma popularity_range_witness :
  let w := fresh_world (1 # 10) (FetchOk 42) in
  popularity (calculateCharacterStats demo_catalog "spider-man" w).1 = 35%Z /\
  (30 <= popularity (calculateCharacterStats demo_catalog "spider-man" w).1
   < 80)%Z.
Proof.
  intros w.
  assert (Hrng : rng_valid w).
  { intros n. split; [discriminate | reflexivity]. }
  assert (Hfind : find_character demo_catalog "spider-man"
                  = Some {| ch_id := "spider-man"; ch_name := "Spider-Man";
                            ch_universe := Marvel;
                            ch_imageUrl := "/clues/spider-man.png";
                            ch_characterImageUrl :=
                              "/characters/spider-man.png";
                            ch_attributes :=
                              {| powers := ["wall-crawling"; "spider-sense"] |}
                         |}) by reflexivity.
  destruct (popularity_range demo_catalog "spider-man" _ w Hrng Hfind)
    as (_ & Heq & Hrange).
  split; [| exact Hrange].
  rewrite Heq. reflexivity.
Defined.

(** ** C5: the difficulty fallback *)

(** C5, as stated, fails: when the difficulty service answers with a
    non-success status nothing is thrown, the difficulty keeps its initial
    value 50 and no random number is drawn for it.  Here every draw is 0.1,
    so a drawn difficulty would be 10, and the award reads five random
    numbers (rarity, variant, popularity, power, id suffix), not six. *)
Lemma not_ok_response_keeps_default :
  let w := fresh_world (1 # 10) FetchNotOk in
  exists reward w',
    awardCard demo_catalog (award_request "spider-man" 5 0 0 true) w
    = (AwardSuccess reward, w') /\
    difficulty (stats (card reward)) = 50%Z /\
    (forall n, Math_floor (rand_src w n * 100) = 10%Z) /\
    rand_pos w' = 5%nat /\
    errors_logged w' = 0%nat.
Proof.
  intros w.
  destruct (awardCard demo_catalog (award_request "spider-man" 5 0 0 true) w)
    as [[reward | st err] w'] eqn:Hrun; [| vm_compute in Hrun; discriminate].
  exists reward, w'. split; [reflexivity |].
  vm_compute in Hrun. injection Hrun as <- <-.
  repeat split.
Qed.

Lemma tick_if_errors_logged cond (w : World) :
  errors_logged (tick_if cond w) = errors_logged w.
Proof. destruct cond; reflexivity. Qed.

(** A successful award logs an error exactly when the call of the
    difficulty service throws. *)
Lemma awardCard_errors_logged CHARACTERS req cid guessTime cluesUsed
    wrongAttempts character (w : World) :
  req_characterId req = Some cid ->
  req_guessTime req = Some guessTime ->
  req_cluesUsed req = Some cluesUsed ->
  req_wrongAttempts req = Some wrongAttempts ->
  cid <> EmptyString ->
  find_character CHARACTERS cid = Some character ->
  errors_logged (awardCard CHARACTERS req w).2
  = if fetch_throws (fetch_src w (fetch_pos w)) then S (errors_logged w)
    else errors_logged w.
Proof.
  intros Hcid Hg Hc Hwr Hne Hfind.
  unfold awardCard. rewrite Hcid, Hg, Hc, Hwr.
  rewrite bool_decide_eq_false_2 by exact Hne. rewrite Hfind.
  set (score := calculatePerformanceScore _ _ _ _).
  unfold bind at 1.
  rewrite (surjective_pairing (determineRarity score w)).
  rewrite determineRarity_draws_once.
  set (r := (determineRarity score w).1).
  unfold bind at 1.
  rewrite (surjective_pairing (determineVariant r _)).
  rewrite determineVariant_draws_once.
  set (v := (determineVariant r _).1).
  unfold bind at 1. rewrite getCollection_run.
  set (w3 := if bool_decide (is_Some _) then _ else _).
  assert (Hw3 : fetch_src w3 = fetch_src w /\ fetch_pos w3 = fetch_pos w /\
                errors_logged w3 = errors_logged w).
  { subst w3. case_bool_decide; repeat split. }
  destruct Hw3 as (Hfs & Hfp & Hel).
  unfold bind at 1.
  rewrite (calculateCharacterStats_found _ _ _ w3 Hfind).
  rewrite Hfs, Hfp, Hel.
  unfold bind, Date_now, Math_random, collection_push.
  rewrite !push_if_run. unfold ret. cbn [snd].
  rewrite !tick_if_errors_logged. reflexivity.
Qed.

(** C5, amended.  When the call of the difficulty service fails, the award
    still succeeds.  If the failure is thrown (the fetch rejects, or reading
    the body throws) it is logged (one call of [console.error]) and the
    difficulty is [Math.floor(Math.random() * 100)], the fourth random
    number of the request; if the service answers with a non-success status
    nothing is logged, the difficulty is the default 50 and no random number
    is drawn for it.  In both cases the difficulty is in [0, 100). *)
Theorem difficulty_fallback CHARACTERS req cid guessTime cluesUsed
    wrongAttempts character (w : World) :
  rng_valid w ->
  req_characterId req = Some cid ->
  req_guessTime req = Some guessTime ->
  req_cluesUsed req = Some cluesUsed ->
  req_wrongAttempts req = Some wrongAttempts ->
  cid <> EmptyString ->
  find_character CHARACTERS cid = Some character ->
  (forall score, fetch_src w (fetch_pos w) <> FetchOk score) ->
  exists reward w',
    awardCard CHARACTERS req w = (AwardSuccess reward, w') /\
    (0 <= difficulty (stats (card reward)) < 100)%Z /\
    stats (card reward) = (calculateCharacterStats CHARACTERS cid
                             (set_rand_pos (2 + rand_pos w) w)).1 /\
    match fetch_src w (fetch_pos w) with
    | FetchNotOk =>
        difficulty (stats (card reward)) = 50%Z /\
        rand_pos w' = (5 + rand_pos w)%nat /\
        errors_logged w' = errors_logged w
    | _ =>
        difficulty (stats (card reward))
        = Math_floor (rand_src w (3 + rand_pos w) * 100) /\
        rand_pos w' = (6 + rand_pos w)%nat /\
        errors_logged w' = S (errors_logged w)
    end.
Proof.
  intros Hrng Hcid Hg Hc Hwr Hne Hfind Hfail.
  destruct (awardCard_success CHARACTERS req cid guessTime cluesUsed
              wrongAttempts character w Hcid Hg Hc Hwr Hne Hfind)
    as (reward & w' & Hrun & Hpost).
  pose proof (awardCard_errors_logged CHARACTERS req cid guessTime cluesUsed
                wrongAttempts character w Hcid Hg Hc Hwr Hne Hfind) as Hlog.
  rewrite Hrun in Hlog. cbn [snd] in Hlog.
  exists reward, w'. split; [exact Hrun |].
  destruct Hpost as (Hcard & _ & _ & _ & _ & _ & Hpos & _).
  rewrite Hcard. cbn [stats minted_card].
  rewrite (calculateCharacterStats_found _ _ _ _ Hfind).
  cbn [fst rand_src rand_pos fetch_src fetch_pos set_rand_pos].
  destruct (Hrng (3 + rand_pos w)%nat) as [H0 H1].
  pose proof (floor_scaled_range _ 100 eq_refl H0 H1) as Hfloor.
  change (inject_Z 100) with 100%Q in Hfloor.
  destruct (fetch_src w (fetch_pos w)) as [| | | score];
    cbn [difficulty stats_from fetch_throws] in *;
    try (exfalso; exact (Hfail score eq_refl));
    (split; [first [exact Hfloor | lia] |]);
    (split; [reflexivity |]);
    (split; [reflexivity | split; [exact Hpos | exact Hlog]]).
Qed.

Lemma difficulty_fallback_witness :
  (exists reward w',
     awardCard demo_catalog (award_request "iron-man" 30 2 3 true)
       (fresh_world (1 # 10) FetchRejects)
     = (AwardSuccess reward, w') /\
     difficulty (stats (card reward)) = 10%Z /\ rand_pos w' = 6%nat /\
     errors_logged w' = 1%nat) /\
  (exists reward w',
     awardCard demo_catalog (award_request "iron-man" 30 2 3 true)
       (fresh_world (1 # 10) FetchNotOk)
     = (AwardSuccess reward, w') /\
     difficulty (stats (card reward)) = 50%Z /\ rand_pos w' = 5%nat /\
     errors_logged w' = 0%nat).
Proof.
  assert (Hrng : forall f, rng_valid (fresh_world (1 # 10) f)).
  { intros f n. split; [discriminate | reflexivity]. }
  assert (Hne : "iron-man" <> EmptyString) by discriminate.
  assert (Hfind : find_character demo_catalog "iron-man"
                  = Some {| ch_id := "iron-man"; ch_name := "Iron Man";
                            ch_universe := Marvel;
                            ch_imageUrl := "/clues/iron-man.png";
                            ch_characterImageUrl := EmptyString;
                            ch_attributes := {| powers := [] |} |})
    by reflexivity.
  split.
  - assert (Hfail : forall score,
               fetch_src (fresh_world (1 # 10) FetchRejects)
                 (fetch_pos (fresh_world (1 # 10) FetchRejects))
               <> FetchOk score) by (intros score; discriminate).
    destruct (difficulty_fallback demo_catalog
                (award_request "iron-man" 30 2 3 true) "iron-man" 30 2 3 _
                (fresh_world (1 # 10) FetchRejects) (Hrng _)
                eq_refl eq_refl eq_refl eq_refl Hne Hfind Hfail)
      as (reward & w' & Hrun & _ & _ & Hd & Hp & Hl).
    exists reward, w'. split; [exact Hrun |].
    split; [rewrite Hd; reflexivity | split; [exact Hp | exact Hl]].
  - assert (Hfail : forall score,
               fetch_src (fresh_world (1 # 10) FetchNotOk)
                 (fetch_pos (fresh_world (1 # 10) FetchNotOk))
               <> FetchOk score) by (intros score; discriminate).
    destruct (difficulty_fallback demo_catalog
                (award_request "iron-man" 30 2 3 true) "iron-man" 30 2 3 _
                (fresh_world (1 # 10) FetchNotOk) (Hrng _)
                eq_refl eq_refl eq_refl eq_refl Hne Hfind Hfail)
      as (reward & w' & Hrun & _ & _ & Hd & Hp & Hl).
    exists reward, w'. split; [exact Hrun |].
    split; [exact Hd | split; [exact Hp | exact Hl]].
Defined.

(** ** C4: awards for a lost game *)

(** C4, as stated, fails: with [isWon] false the score is 0, and a rarity
    roll below 20 gives a rare card; a variant roll below 20 then makes it
    shiny.  Here every draw is 0.1, so both rolls are 10. *)
Lemma lost_game_can_mint_rare_shiny :
  exists reward w',
    awardCard demo_catalog (award_request "iron-man" 30 2 3 false)
      (fresh_world (1 # 10) (FetchOk 42))
    = (AwardSuccess reward, w') /\
    perf_score (performance reward) = 0%Q /\
    rarity (card reward) = rare /\
    variant (card reward) = shiny.
Proof.
  destruct (awardCard demo_catalog (award_request "iron-man" 30 2 3 false)
              (fresh_world (1 # 10) (FetchOk 42)))
    as [[reward | st err] w'] eqn:Hrun; [| vm_compute in Hrun; discriminate].
  exists reward, w'. split; [reflexivity |].
  vm_compute in Hrun. injection Hrun as <- _.
  repeat split.
Qed.

(** C4, amended.  An award request with [isWon] false that passes validation
    and lookup has score 0, and the rarity and variant draws still occur:
    they are the first two random numbers of the request.  The rarity is
    rare when the rarity roll is below 20 and common otherwise; the variant
    is shiny when the card is rare and the variant roll is below 20, and
    standard otherwise. *)
Theorem lost_game_draws CHARACTERS req cid guessTime cluesUsed wrongAttempts
    character (w : World) :
  req_characterId req = Some cid ->
  req_guessTime req = Some guessTime ->
  req_cluesUsed req = Some cluesUsed ->
  req_wrongAttempts req = Some wrongAttempts ->
  req_isWon req = Some false ->
  cid <> EmptyString ->
  find_character CHARACTERS cid = Some character ->
  exists reward w',
    awardCard CHARACTERS req w = (AwardSuccess reward, w') /\
    perf_score (performance reward) = 0%Q /\
    let rarityRoll := (rand_src w (rand_pos w) * 100)%Q in
    let variantRoll := (rand_src w (S (rand_pos w)) * 100)%Q in
    determineRarity 0 w
    = (rarity (card reward), set_rand_pos (S (rand_pos w)) w) /\
    determineVariant (rarity (card reward)) (set_rand_pos (S (rand_pos w)) w)
    = (variant (card reward), set_rand_pos (S (S (rand_pos w))) w) /\
    rarity (card reward) = (if Qltb rarityRoll 20 then rare else common) /\
    variant (card reward)
    = (if Qltb rarityRoll 20 && Qltb variantRoll 20 then shiny
       else standard) /\
    (2 + rand_pos w <= rand_pos w')%nat.
Proof.
  intros Hcid Hg Hc Hwr Hwon Hne Hfind.
  destruct (awardCard_success CHARACTERS req cid guessTime cluesUsed
              wrongAttempts character w Hcid Hg Hc Hwr Hne Hfind)
    as (reward & w' & Hrun & Hpost).
  exists reward, w'. split; [exact Hrun |].
  destruct Hpost as (Hcard & Hscore & _ & _ & _ & _ & Hpos & _).
  rewrite Hwon in Hcard, Hscore.
  change (calculatePerformanceScore guessTime cluesUsed wrongAttempts
            (Some false)) with 0%Q in Hcard, Hscore.
  split; [exact Hscore |].
  intros rarityRoll variantRoll.
  assert (Hr : (determineRarity 0 w).1
               = if Qltb rarityRoll 20 then rare else common).
  { unfold determineRarity, bind, Math_random, ret.
    change (Qgeb 0 95) with false. change (Qgeb 0 80) with false.
    change (Qgeb 0 60) with false. change (Qgeb 0 40) with false.
    cbv iota. unfold rarityRoll.
    destruct (Qltb (rand_src w (rand_pos w) * 100) 20); reflexivity. }
  assert (Hv : forall r,
             (determineVariant r (set_rand_pos (S (rand_pos w)) w)).1
             = match r with
               | rare => if Qltb variantRoll 20 then shiny else standard
               | common => standard
               | _ => (determineVariant r
                         (set_rand_pos (S (rand_pos w)) w)).1
               end).
  { intros []; try reflexivity.
    unfold determineVariant, bind, Math_random, ret.
    cbn [rand_src rand_pos set_rand_pos]. unfold variantRoll.
    destruct (Qltb (rand_src w (S (rand_pos w)) * 100) 20); reflexivity. }
  rewrite Hcard. cbn [rarity variant minted_card].
  split.
  { rewrite (surjective_pairing (determineRarity 0 w)) at 1.
    now rewrite determineRarity_draws_once. }
  split.
  { rewrite (surjective_pairing (determineVariant _ _)) at 1.
    now rewrite determineVariant_draws_once. }
  split; [exact Hr |].
  split.
  - rewrite Hv, Hr. destruct (Qltb rarityRoll 20); reflexivity.
  - rewrite Hpos. destruct (fetch_throws _); lia.
Qed.

Lemma lost_game_draws_witness :
  exists reward w',
    awardCard demo_catalog (award_request "iron-man" 30 2 3 false)
      (fresh_world (9 # 10) (FetchOk 42))
    = (AwardSuccess reward, w') /\
    perf_score (performance reward) = 0%Q /\
    rarity (card reward) = common /\
    variant (card reward) = standard /\
    (2 <= rand_pos w')%nat.
Proof.
  assert (Hne : "iron-man" <> EmptyString) by discriminate.
  assert (Hfind : find_character demo_catalog "iron-man"
                  = Some {| ch_id := "iron-man"; ch_name := "Iron Man";
                            ch_universe := Marvel;
                            ch_imageUrl := "/clues/iron-man.png";
                            ch_characterImageUrl := EmptyString;
                            ch_attributes := {| powers := [] |} |})
    by reflexivity.
  destruct (lost_game_draws demo_catalog
              (award_request "iron-man" 30 2 3 false) "iron-man" 30 2 3 _
              (fresh_world (9 # 10) (FetchOk 42))
              eq_refl eq_refl eq_refl eq_refl eq_refl Hne Hfind)
    as (reward & w' & Hrun & Hscore & _ & _ & Hr & Hv & Hpos).
  exists reward, w'. split; [exact Hrun |].
  split; [exact Hscore |].
  split; [exact Hr |].
  split; [exact Hv | exact Hpos].
Defined.

(** ** C3: validation of the request *)

(** A request that lacks [characterId], [guessTime], [cluesUsed] or
    [wrongAttempts] (or whose [characterId] is the empty string) is answered
    with 400 and changes nothing. *)
Lemma awardCard_rejects_missing CHARACTERS req (w : World) :
  req_characterId req = None \/ req_characterId req = Some EmptyString \/
  req_guessTime req = None \/ req_cluesUsed req = None \/
  req_wrongAttempts req = None ->
  awardCard CHARACTERS req w = (AwardFailure 400 "Missing required fields", w).
Proof.
  unfold awardCard.
  destruct (req_characterId req) as [cid |], (req_guessTime req),
    (req_cluesUsed req), (req_wrongAttempts req);
    try reflexivity.
  intros [H | [H | [H | [H | H]]]]; try discriminate H.
  injection H as ->. reflexivity.
Qed.

(** C3 fails on the code: the validation does not look at [isWon].  A request
    that lacks only [isWon] is answered with success (a card of score 0 is
    minted) and the card is stored. *)
Theorem awardCard_accepts_missing_isWon :
  let w := fresh_world (9 # 10) (FetchOk 42) in
  exists reward w',
    awardCard demo_catalog request_without_isWon w
    = (AwardSuccess reward, w') /\
    perf_score (performance reward) = 0%Q /\
    stored w = [] /\
    stored w' = [card reward].
Proof.
  intros w.
  destruct (awardCard demo_catalog request_without_isWon w)
    as [[reward | st err] w'] eqn:Hrun; [| vm_compute in Hrun; discriminate].
  exists reward, w'. split; [reflexivity |].
  vm_compute in Hrun. injection Hrun as <- <-.
  repeat split.
Qed.

(** ** C6: the order of the stored collection *)

(** C6 fails on the code: [getCardCollection] sorts the stored array itself,
    newest first.  After it the stored sequence is no longer in unlock
    order, and [getAchievements] reports for [first-card] the timestamp of
    the newest card, not of the first one minted. *)
Theorem collection_read_reorders_store :
  let run := serve demo_catalog script_requests
               (fresh_world (1 # 10) (FetchOk 42)) in
  map unlockedAt (minted run.1) = [2000; 5000]%Z /\
  map unlockedAt (stored run.2) = [5000; 2000]%Z /\
  (reported_unlockedAt "first-card" <$> run.1 !! 3%nat) = Some (Some 5000%Z).
Proof. vm_compute. repeat split. Qed.

(** Without a read of the collection the stored array only grows at its
    end. *)
Lemma stored_append_only CHARACTERS rs :
  Forall (fun r => r <> GetCollection) rs ->
  forall w : World,
    stored (serve CHARACTERS rs w).2
    = stored w ++ minted (serve CHARACTERS rs w).1.
Proof.
  induction 1 as [| r rs Hr _ IH]; intros w.
  - cbn. now rewrite app_nil_r.
  - rewrite serve_cons. cbn [fst snd]. rewrite IH.
    unfold minted. rewrite rewards_of_cons.
    pose proof (handle_cases CHARACTERS r w) as Hh.
    destruct r as [req | |]; [| congruence |].
    + destruct (reward_of (handle CHARACTERS (PostAwardCard req) w).1)
        as [reward |] eqn:Hrw.
      * destruct Hh as (req' & _ & ->). cbn [map]. now rewrite <- app_assoc.
      * unfold handle, bind, ret in Hrw |- *.
        destruct (awardCard_cases CHARACTERS req w)
          as [(st & err & _ & ->) | (? & ? & ? & ? & ? & ? & ? & H)];
          [reflexivity |].
        destruct H as (_ & _ & _ & _ & _ & _ & Hok & _).
        rewrite Hok in Hrw. discriminate.
    + cbn [handle reward_of]. unfold bind, ret.
      pose proof (getAchievements_stored w) as Hs.
      destruct (getAchievements w) as [res w1]. cbn [fst snd] in *.
      now rewrite Hs.
Qed.

(** * Further properties of the reward routes *)

(** ** The performance score *)

Lemma time_penalty_eq (g : Q) : (Qmin 30 g / 30 * 30 == Qmin 30 g)%Q.
Proof. field. Qed.

Lemma score_won (g c wr : Q) :
  (calculatePerformanceScore g c wr (Some true)
   == Qmax 0 (Qmin 100 (100 - Qmin 30 g - c * 10 - wr * 5)))%Q.
Proof.
  unfold calculatePerformanceScore. cbn [is_falsy]. cbv zeta.
  now rewrite time_penalty_eq.
Qed.

(** X1.  The score never rises when the guess takes longer, uses more clues
    or has more wrong attempts. *)
Theorem score_never_rises (guessTime guessTime' cluesUsed cluesUsed'
    wrongAttempts wrongAttempts' : Q) (isWon : option bool) :
  (guessTime <= guessTime')%Q ->
  (cluesUsed <= cluesUsed')%Q ->
  (wrongAttempts <= wrongAttempts')%Q ->
  (calculatePerformanceScore guessTime' cluesUsed' wrongAttempts' isWon
   <= calculatePerformanceScore guessTime cluesUsed wrongAttempts isWon)%Q.
Proof.
  intros Hg Hc Hw. unfold calculatePerformanceScore.
  destruct (is_falsy isWon); [apply Qle_refl |]. cbv zeta.
  apply Q.max_le_compat_l, Q.min_le_compat_l.
  rewrite !time_penalty_eq.
  pose proof (Q.min_le_compat_l _ _ 30 Hg) as Hmin. lra.
Qed.

Lemma score_never_rises_witness :
  (calculatePerformanceScore 20 2 3 (Some true)
   <= calculatePerformanceScore 5 0 1 (Some true))%Q /\
  (calculatePerformanceScore 5 0 1 (Some true) == 90)%Q /\
  (calculatePerformanceScore 20 2 3 (Some true) == 45)%Q.
Proof.
  split; [| split; reflexivity].
  apply (score_never_rises 5 20 0 2 1 3 (Some true)); discriminate.
Defined.

(** X2.  The time penalty stops growing at 30 seconds: any guess time of 30
    seconds or more gives the score of exactly 30 seconds.  So time alone
    costs at most 30 points: a won game without clues and wrong attempts
    scores at least 70 whatever the guess time, short or long. *)
Theorem time_penalty_saturates (guessTime cluesUsed wrongAttempts : Q)
    (isWon : option bool) :
  ((30 <= guessTime)%Q ->
   (calculatePerformanceScore guessTime cluesUsed wrongAttempts isWon
    == calculatePerformanceScore 30 cluesUsed wrongAttempts isWon)%Q) /\
  (70 <= calculatePerformanceScore guessTime 0 0 (Some true))%Q.
Proof.
  split.
  - intros Hg.
    assert (Hmin : (Qmin 30 guessTime == 30)%Q) by (apply Q.min_l; exact Hg).
    unfold calculatePerformanceScore.
    destruct (is_falsy isWon); [reflexivity |]. cbv zeta.
    rewrite !time_penalty_eq, Hmin. reflexivity.
  - rewrite score_won.
    pose proof (Q.le_min_l 30 guessTime) as Hmin.
    apply Qle_trans with (Qmin 100 (100 - Qmin 30 guessTime - 0 * 10 - 0 * 5))%Q;
      [| apply Q.le_max_r].
    apply Q.min_glb; [discriminate | lra].
Qed.

Lemma time_penalty_saturates_witness :
  (calculatePerformanceScore 10000 1 2 (Some true)
   == calculatePerformanceScore 30 1 2 (Some true))%Q /\
  (calculatePerformanceScore 30 1 2 (Some true) == 50)%Q /\
  (70 <= calculatePerformanceScore 10000 0 0 (Some true))%Q /\
  (70 <= calculatePerformanceScore 12 0 0 (Some true))%Q /\
  (calculatePerformanceScore 12 0 0 (Some true) == 88)%Q.
Proof.
  assert (H : (30 <= 10000)%Q) by discriminate.
  split; [| split; [| split; [| split]]].
  - exact (proj1 (time_penalty_saturates 10000 1 2 (Some true)) H).
  - reflexivity.
  - exact (proj2 (time_penalty_saturates 10000 0 0 (Some true))).
  - exact (proj2 (time_penalty_saturates 12 0 0 (Some true))).
  - reflexivity.
Defined.

Lemma score_100_iff (guessTime cluesUsed wrongAttempts : Q) :
  (0 <= guessTime)%Q -> (0 <= cluesUsed)%Q -> (0 <= wrongAttempts)%Q ->
  (calculatePerformanceScore guessTime cluesUsed wrongAttempts (Some true)
   == 100)%Q <->
  (guessTime == 0 /\ cluesUsed == 0 /\ wrongAttempts == 0)%Q.
Proof.
  intros Hg Hc Hw. rewrite score_won.
  set (s := (100 - Qmin 30 guessTime - cluesUsed * 10 - wrongAttempts * 5)%Q).
  assert (Hs : (s <= 100)%Q /\
               (s == 100 <-> guessTime == 0 /\ cluesUsed == 0
                             /\ wrongAttempts == 0)%Q).
  { subst s.
    destruct (Q.min_spec 30 guessTime) as [[Hlt ->] | [Hle ->]].
    - split; [lra |]. split; [intros H; exfalso; lra |].
      intros (H1 & H2 & H3). exfalso. lra.
    - split; [lra |]. split.
      + intros H. repeat split; lra.
      + intros (H1 & H2 & H3). lra. }
  destruct Hs as [Hle Hiff]. rewrite <- Hiff.
  rewrite (Q.min_r 100 s) by exact Hle.
  destruct (Q.max_spec 0 s) as [[Hlt ->] | [Hge ->]]; [reflexivity |].
  split; intros H; exfalso; lra.
Qed.

(** ** The rarity and variant draws *)

(** X3.  Whatever the random number, the score bounds the tier: a mythic or
    legendary card needs a score of at least 80, an epic card at least 40;
    a common card is not drawn at 80 or more, a rare card not at 95 or
    more. *)
Theorem rarity_bounded_by_score (performanceScore : Q) (w : World) :
  let r := (determineRarity performanceScore w).1 in
  (r = mythic \/ r = legendary -> (80 <= performanceScore)%Q) /\
  (r = epic -> (40 <= performanceScore)%Q) /\
  (r = rare -> (performanceScore < 95)%Q) /\
  (r = common -> (performanceScore < 80)%Q).
Proof.
  unfold determineRarity, Qgeb, bind, Math_random, ret.
  destruct (Qle_bool 95 performanceScore) eqn:H95;
    [apply Qle_bool_iff in H95 | apply Qle_bool_false in H95];
  [| destruct (Qle_bool 80 performanceScore) eqn:H80;
     [apply Qle_bool_iff in H80 | apply Qle_bool_false in H80];
   [| destruct (Qle_bool 60 performanceScore) eqn:H60;
      [apply Qle_bool_iff in H60 | apply Qle_bool_false in H60];
    [| destruct (Qle_bool 40 performanceScore) eqn:H40;
       [apply Qle_bool_iff in H40 | apply Qle_bool_false in H40]]]];
    repeat match goal with
    | |- context [Qltb ?a ?b] => destruct (Qltb a b)
    end;
    cbn [fst]; repeat split;
    try (intros [H | H]; discriminate H);
    try (intros H; discriminate H);
    intros _; lra.
Qed.

(** X4.  [determineVariant] reads one random number for every rarity, also
    for a common card whose variant does not depend on it.  A common card
    is always standard and a mythic card never is; only mythic and
    legendary cards can be animated, and a rare card is never holographic. *)
Theorem variant_bounded_by_rarity (r : CardRarity) (w : World) :
  let v := (determineVariant r w).1 in
  (determineVariant r w).2 = set_rand_pos (S (rand_pos w)) w /\
  (r = common -> v = standard) /\
  (r = mythic -> v <> standard) /\
  (v = animated -> r = mythic \/ r = legendary) /\
  (v = holographic -> r = mythic \/ r = legendary \/ r = epic) /\
  (v = shiny -> r <> common).
Proof.
  cbv zeta. split; [apply determineVariant_draws_once |].
  unfold determineVariant, bind, Math_random, ret.
  destruct r;
    repeat match goal with
    | |- context [Qltb ?a ?b] => destruct (Qltb a b)
    end;
    cbn [fst]; repeat split; intros H; try discriminate H;
    try (intros H'; discriminate H'); auto.
Qed.

Lemma rarity_bounded_by_score_witness :
  (determineRarity (2850 # 30) (fresh_world (1 # 10) FetchNotOk)).1 = mythic /\
  (80 <= 2850 # 30)%Q /\
  (determineRarity 35 (fresh_world (9 # 10) FetchNotOk)).1 = common /\
  (35 < 80)%Q.
Proof.
  assert (H1 : (determineRarity (2850 # 30)
                  (fresh_world (1 # 10) FetchNotOk)).1 = mythic)
    by reflexivity.
  assert (H2 : (determineRarity 35 (fresh_world (9 # 10) FetchNotOk)).1
               = common) by reflexivity.
  split; [exact H1 |]. split; [| split; [exact H2 |]].
  - destruct (rarity_bounded_by_score (2850 # 30)
                (fresh_world (1 # 10) FetchNotOk)) as (Hm & _).
    exact (Hm (or_introl H1)).
  - destruct (rarity_bounded_by_score 35 (fresh_world (9 # 10) FetchNotOk))
      as (_ & _ & _ & Hc).
    exact (Hc H2).
Defined.

Lemma variant_bounded_by_rarity_witness :
  (determineVariant common (fresh_world (1 # 10) FetchNotOk)).1 = standard /\
  rand_pos (determineVariant common (fresh_world (1 # 10) FetchNotOk)).2
  = 1%nat /\
  (determineVariant mythic (fresh_world (9 # 10) FetchNotOk)).1 <> standard.
Proof.
  destruct (variant_bounded_by_rarity common
              (fresh_world (1 # 10) FetchNotOk)) as (Hpos & Hc & _).
  destruct (variant_bounded_by_rarity mythic
              (fresh_world (9 # 10) FetchNotOk)) as (_ & _ & Hm & _).
  split; [exact (Hc eq_refl) |].
  split; [rewrite Hpos; reflexivity | exact (Hm eq_refl)].
Defined.

(** ** The stats *)

Lemma Math_round_range (s : Q) :
  (0 <= s <= 100)%Q -> (0 <= Math_round s <= 100)%Z.
Proof.
  intros [H0 H1]. unfold Math_round. split.
  - change 0%Z with (Qfloor (0 + (1 # 2))). apply Qfloor_resp_le. lra.
  - change 100%Z with (Qfloor (100 + (1 # 2))). apply Qfloor_resp_le. lra.
Qed.

Lemma stats_from_range (character : Character) (src : nat -> Q) (p : nat)
    (o : FetchOutcome) :
  (forall n, (0 <= src n /\ src n < 1)%Q) ->
  (forall s, o = FetchOk s -> (0 <= s <= 100)%Q) ->
  let st := stats_from character src p o in
  (30 <= popularity st < 80)%Z /\
  (0 <= difficulty st <= 100)%Z /\
  (20 <= power st < 90)%Z /\
  (powers (ch_attributes character) <> [] -> (60 <= power st < 90)%Z) /\
  (powers (ch_attributes character) = [] -> (20 <= power st < 80)%Z) /\
  (forall s, o = FetchOk s -> difficulty st = Math_round s).
Proof.
  intros Hrng Hscore st. subst st.
  unfold stats_from. cbn [popularity difficulty power].
  rewrite universe_never_popular.
  set (q := if fetch_throws o then S (S p) else S p).
  destruct (Hrng p) as [Hp0 Hp1].
  destruct (Hrng (S p)) as [Hd0 Hd1].
  destruct (Hrng q) as [Hq0 Hq1].
  pose proof (floor_scaled_range _ 50 eq_refl Hp0 Hp1) as Hpop.
  pose proof (floor_scaled_range _ 100 eq_refl Hd0 Hd1) as Hdif.
  pose proof (floor_scaled_range _ 30 eq_refl Hq0 Hq1) as Hpow30.
  pose proof (floor_scaled_range _ 60 eq_refl Hq0 Hq1) as Hpow60.
  change (inject_Z 50) with 50%Q in Hpop.
  change (inject_Z 100) with 100%Q in Hdif.
  change (inject_Z 30) with 30%Q in Hpow30.
  change (inject_Z 60) with 60%Q in Hpow60.
  assert (Hd : (0 <= match o with
                     | FetchOk difficulty_score => Math_round difficulty_score
                     | FetchNotOk => 50
                     | _ => Math_floor (src (S p) * 100)
                     end <= 100)%Z).
  { destruct o as [| | | s] eqn:Ho; try lia.
    apply Math_round_range, Hscore. reflexivity. }
  split; [lia |]. split; [exact Hd |].
  destruct (powers (ch_attributes character)) as [| x xs] eqn:Hpw;
    cbn [length Nat.ltb Nat.leb].
  - split; [lia |]. split; [intros H; now contradict H |].
    split; [intros _; lia |].
    intros s Hs. now rewrite Hs.
  - split; [lia |]. split; [intros _; lia |].
    split; [intros H; discriminate H |].
    intros s Hs. now rewrite Hs.
Qed.

(** X5.  For a catalog character every stat is an integer in [0, 100],
    provided a successful answer of the difficulty service carries a score in
    [0, 100]: the power is in [60, 90) when the character has powers and in
    [20, 80) when it has none, and the difficulty is the rounded score of
    the service when the call succeeds. *)
Theorem stats_in_range CHARACTERS cid character (w : World) :
  rng_valid w ->
  find_character CHARACTERS cid = Some character ->
  (forall s, fetch_src w (fetch_pos w) = FetchOk s -> (0 <= s <= 100)%Q) ->
  let st := (calculateCharacterStats CHARACTERS cid w).1 in
  (0 <= popularity st <= 100)%Z /\
  (0 <= difficulty st <= 100)%Z /\
  (0 <= power st <= 100)%Z /\
  (powers (ch_attributes character) <> [] -> (60 <= power st < 90)%Z) /\
  (powers (ch_attributes character) = [] -> (20 <= power st < 80)%Z) /\
  (forall s, fetch_src w (fetch_pos w) = FetchOk s ->
             difficulty st = Math_round s).
Proof.
  intros Hrng Hfind Hscore st. subst st.
  rewrite (calculateCharacterStats_found _ _ _ _ Hfind). cbn [fst].
  destruct (stats_from_range character (rand_src w) (rand_pos w)
              (fetch_src w (fetch_pos w)) Hrng Hscore)
    as (Hpop & Hdif & Hpow & Hwith & Hwithout & Hround).
  split; [lia |]. split; [exact Hdif |]. split; [lia |].
  split; [exact Hwith |]. split; [exact Hwithout | exact Hround].
Qed.

Lemma stats_in_range_witness :
  let st := (calculateCharacterStats demo_catalog "iron-man"
               (fresh_world (1 # 2) (FetchOk (173 # 2)))).1 in
  (0 <= popularity st <= 100)%Z /\
  difficulty st = 87%Z /\
  (20 <= power st < 80)%Z.
Proof.
  assert (Hrng : rng_valid (fresh_world (1 # 2) (FetchOk (173 # 2)))).
  { intros n. split; [discriminate | reflexivity]. }
  assert (Hfind : find_character demo_catalog "iron-man"
                  = Some {| ch_id := "iron-man"; ch_name := "Iron Man";
                            ch_universe := Marvel;
                            ch_imageUrl := "/clues/iron-man.png";
                            ch_characterImageUrl := EmptyString;
                            ch_attributes := {| powers := [] |} |})
    by reflexivity.
  assert (Hs : forall s,
             fetch_src (fresh_world (1 # 2) (FetchOk (173 # 2)))
               (fetch_pos (fresh_world (1 # 2) (FetchOk (173 # 2))))
             = FetchOk s -> (0 <= s <= 100)%Q).
  { intros s H. injection H as <-. split; discriminate. }
  destruct (stats_in_range demo_catalog "iron-man" _ _ Hrng Hfind Hs)
    as (Hpop & _ & _ & _ & Hpow & Hround).
  split; [exact Hpop |].
  split; [rewrite (Hround _ eq_refl); reflexivity | exact (Hpow eq_refl)].
Defined.

(** X6.  [calculateCharacterStats] calls the difficulty service exactly once
    for a catalog character and logs an error exactly when the call throws;
    for an id that is not in the catalog it returns 50 for every stat
    without calling the service or reading a random number.  It never
    touches the stored collections or the clock. *)
Theorem stats_call_the_service_once CHARACTERS cid (w : World) :
  let st := (calculateCharacterStats CHARACTERS cid w).1 in
  let w' := (calculateCharacterStats CHARACTERS cid w).2 in
  let o := fetch_src w (fetch_pos w) in
  cardCollections w' = cardCollections w /\
  clock_pos w' = clock_pos w /\
  (is_Some (find_character CHARACTERS cid) ->
   fetch_pos w' = S (fetch_pos w) /\
   errors_logged w'
   = (if fetch_throws o then S (errors_logged w) else errors_logged w) /\
   rand_pos w'
   = (if fetch_throws o then 3 + rand_pos w else 2 + rand_pos w)%nat) /\
  (find_character CHARACTERS cid = None ->
   w' = w /\ st = {| popularity := 50; difficulty := 50; power := 50 |}).
Proof.
  cbv zeta.
  destruct (find_character CHARACTERS cid) as [character |] eqn:Hfind.
  - rewrite (calculateCharacterStats_found _ _ _ _ Hfind). cbn [fst snd].
    split; [reflexivity |]. split; [reflexivity |].
    split; [intros _; repeat split | intros Hnone; discriminate Hnone].
  - rewrite (calculateCharacterStats_missing _ _ _ Hfind). cbn [fst snd].
    split; [reflexivity |]. split; [reflexivity |].
    split; [intros [x Hx]; discriminate Hx | intros _; split; reflexivity].
Qed.

Lemma stats_call_the_service_once_witness :
  fetch_pos (calculateCharacterStats demo_catalog "spider-man"
               (fresh_world (1 # 2) FetchRejects)).2 = 1%nat /\
  errors_logged (calculateCharacterStats demo_catalog "spider-man"
                   (fresh_world (1 # 2) FetchRejects)).2 = 1%nat /\
  (calculateCharacterStats demo_catalog "nobody"
     (fresh_world (1 # 2) FetchRejects)).2
  = fresh_world (1 # 2) FetchRejects.
Proof.
  destruct (stats_call_the_service_once demo_catalog "spider-man"
              (fresh_world (1 # 2) FetchRejects)) as (_ & _ & Hin & _).
  destruct (stats_call_the_service_once demo_catalog "nobody"
              (fresh_world (1 # 2) FetchRejects)) as (_ & _ & _ & Hout).
  destruct Hin as (Hf & He & _); [eexists; reflexivity |].
  destruct Hout as (Hw & _); [reflexivity |].
  split; [rewrite Hf; reflexivity |].
  split; [rewrite He; reflexivity | exact Hw].
Defined.

(** ** The award *)

(** The whole reward of a successful award. *)
Lemma awardCard_reward CHARACTERS req cid guessTime cluesUsed wrongAttempts
    character (w : World) :
  req_characterId req = Some cid ->
  req_guessTime req = Some guessTime ->
  req_cluesUsed req = Some cluesUsed ->
  req_wrongAttempts req = Some wrongAttempts ->
  cid <> EmptyString ->
  find_character CHARACTERS cid = Some character ->
  let score :=
    calculatePerformanceScore guessTime cluesUsed wrongAttempts
      (req_isWon req) in
  let newCard := minted_card character cid score w in
  (awardCard CHARACTERS req w).1 =
    AwardSuccess
      {| card := newCard;
         isFirstTime := (length (cards_of cid (stored w)) =? 0)%nat;
         isDuplicate := negb (length (cards_of cid (stored w)) =? 0)%nat;
         performance :=
           {| perf_guessTime := guessTime; perf_cluesUsed := cluesUsed;
              perf_wrongAttempts := wrongAttempts; perf_score := score |};
         bonusMultiplier := (score / 100)%Q;
         unlockedAchievements :=
           event_achievements (stored w ++ [newCard]) (rarity newCard) score
             (clock_src w) (2 + clock_pos w) |}.
Proof.
  intros Hcid Hg Hc Hwr Hne Hfind score newCard.
  unfold awardCard. rewrite Hcid, Hg, Hc, Hwr.
  rewrite bool_decide_eq_false_2 by exact Hne. rewrite Hfind.
  fold score.
  unfold bind at 1.
  rewrite (surjective_pairing (determineRarity score w)).
  rewrite determineRarity_draws_once.
  set (r := (determineRarity score w).1).
  unfold bind at 1.
  rewrite (surjective_pairing (determineVariant r _)).
  rewrite determineVariant_draws_once.
  set (v := (determineVariant r _).1).
  unfold bind at 1. rewrite getCollection_run.
  set (w3 := if bool_decide (is_Some _) then _ else _).
  assert (Hw3 : stored w3 = stored w /\
                rand_src w3 = rand_src w /\ rand_pos w3 = S (S (rand_pos w)) /\
                clock_src w3 = clock_src w /\ clock_pos w3 = clock_pos w /\
                fetch_src w3 = fetch_src w /\ fetch_pos w3 = fetch_pos w).
  { subst w3. unfold stored. cbn [cardCollections set_rand_pos].
    case_bool_decide as Hs; cbn; [repeat split |].
    rewrite lookup_insert_eq.
    destruct (cardCollections w !! "default") eqn:E;
      [exfalso; apply Hs; eauto |].
    repeat split. }
  destruct Hw3 as (Hst & Hrs & Hrp & Hcs & Hcp & Hfs & Hfp).
  change (stored (set_rand_pos (S (rand_pos (set_rand_pos (S (rand_pos w)) w)))
            (set_rand_pos (S (rand_pos w)) w))) with (stored w).
  unfold bind at 1.
  rewrite (calculateCharacterStats_found _ _ _ w3 Hfind).
  rewrite Hrs, Hrp, Hfs, Hfp.
  unfold bind, Date_now, Math_random, collection_push.
  cbn [clock_src clock_pos rand_src rand_pos set_rand_pos set_clock_pos
       set_errors_logged set_fetch_pos cardCollections set_cardCollections].
  rewrite !push_if_run. unfold ret.
  cbn [fst]. rewrite Hcs, Hcp, Hrs.
  assert (Hold : default [] (cardCollections w3 !! "default") = stored w)
    by exact Hst.
  rewrite Hold.
  set (nc := Build_CharacterCard _ _ _ _ _ _ _ _ _ _ _).
  assert (Hnc : nc = newCard) by reflexivity.
  clearbody nc. subst nc.
  unfold event_achievements, tick_if, cards_of.
  change (rarity newCard) with r.
  repeat match goal with
  | |- context [if ?c then [?a] else []] => destruct c
  end;
    cbn [clock_src clock_pos set_cardCollections set_clock_pos set_rand_pos
         set_errors_logged set_fetch_pos];
    rewrite ?Hcs, ?Hcp; reflexivity.
Qed.

Lemma awardCard_reward_inv CHARACTERS req (w : World) reward w' :
  awardCard CHARACTERS req w = (AwardSuccess reward, w') ->
  exists cid guessTime cluesUsed wrongAttempts character,
    req_characterId req = Some cid /\
    req_guessTime req = Some guessTime /\
    req_cluesUsed req = Some cluesUsed /\
    req_wrongAttempts req = Some wrongAttempts /\
    cid <> EmptyString /\
    find_character CHARACTERS cid = Some character /\
    let score :=
      calculatePerformanceScore guessTime cluesUsed wrongAttempts
        (req_isWon req) in
    let newCard := minted_card character cid score w in
    reward =
      {| card := newCard;
         isFirstTime := (length (cards_of cid (stored w)) =? 0)%nat;
         isDuplicate := negb (length (cards_of cid (stored w)) =? 0)%nat;
         performance :=
           {| perf_guessTime := guessTime; perf_cluesUsed := cluesUsed;
              perf_wrongAttempts := wrongAttempts; perf_score := score |};
         bonusMultiplier := (score / 100)%Q;
         unlockedAchievements :=
           event_achievements (stored w ++ [newCard]) (rarity newCard) score
             (clock_src w) (2 + clock_pos w) |}.
Proof.
  intros Hrun.
  destruct (awardCard_inv _ _ _ _ _ Hrun)
    as (cid & g & c & wr & ch & Hcid & Hg & Hc & Hwr & Hne & Hfind & _).
  exists cid, g, c, wr, ch. repeat (split; [assumption |]).
  pose proof (awardCard_reward CHARACTERS req cid g c wr ch w
                Hcid Hg Hc Hwr Hne Hfind) as Hrw.
  cbv zeta in Hrw |- *. rewrite Hrun in Hrw. cbn [fst] in Hrw.
  now injection Hrw.
Qed.



(** X8.  A successful award pushes exactly one card, the one it returns, at
    the end of the array of the user "default"; the collections of all other
    users stay as they are, and the difficulty service is called exactly
    once. *)
Theorem award_pushes_one_card CHARACTERS req (w : World) reward w' :
  awardCard CHARACTERS req w = (AwardSuccess reward, w') ->
  stored w' = stored w ++ [card reward] /\
  (forall user, user <> "default" ->
     cardCollections w' !! user = cardCollections w !! user) /\
  fetch_pos w' = S (fetch_pos w) /\
  rand_src w' = rand_src w /\ clock_src w' = clock_src w /\
  fetch_src w' = fetch_src w.
Proof.
  intros Hrun.
  destruct (awardCard_inv _ _ _ _ _ Hrun)
    as (cid & g & c & wr & ch & _ & _ & _ & _ & _ & _ & Hpost).
  split; [exact (award_post_stored _ _ _ _ _ _ _ _ _ Hpost) |].
  destruct Hpost as (_ & _ & _ & _ & Hstore & Hrs & _ & Hcs & Hfs & Hfp).
  split; [| repeat split; assumption].
  intros user Hne. rewrite Hstore. now apply lookup_insert_ne.
Qed.

Lemma award_pushes_one_card_witness :
  let w := fresh_world (1 # 2) (FetchOk 42) in
  exists reward w',
    awardCard demo_catalog (award_request "spider-man" 5 0 0 true) w
    = (AwardSuccess reward, w') /\
    stored w' = [card reward] /\ fetch_pos w' = 1%nat.
Proof.
  intros w.
  destruct (awardCard demo_catalog (award_request "spider-man" 5 0 0 true) w)
    as [[reward | st err] w'] eqn:Hrun; [| vm_compute in Hrun; discriminate].
  exists reward, w'. split; [reflexivity |].
  destruct (award_pushes_one_card _ _ _ _ _ Hrun) as (Hst & _ & Hf & _).
  split; [exact Hst | exact Hf].
Defined.

Lemma cards_of_nil_iff cid (l : list CharacterCard) :
  length (cards_of cid l) = 0%nat <->
  forall c, c ∈ l -> characterId c <> cid.
Proof.
  unfold cards_of. split.
  - intros Hlen c Hin Hc.
    assert (Hmem : c ∈ filter (fun c => characterId c = cid) l)
      by (apply list_elem_of_filter; split; assumption).
    destruct (filter (fun c => characterId c = cid) l);
      [inversion Hmem | discriminate Hlen].
  - intros Hnone.
    destruct (filter (fun c => characterId c = cid) l) as [| x xs] eqn:E;
      [reflexivity |].
    assert (Hmem : x ∈ filter (fun c => characterId c = cid) l)
      by (rewrite E; left).
    apply list_elem_of_filter in Hmem as [Hx Hin].
    exfalso. exact (Hnone x Hin Hx).
Qed.

(** X9.  The [k]-th reward of a run of requests is flagged [isFirstTime]
    exactly when no card owned before it (stored at the start of the run or
    minted earlier in it) belongs to the same character, and [isDuplicate]
    is always the opposite flag. *)
Theorem first_time_flag CHARACTERS rs (w : World) k reward :
  rewards_of (serve CHARACTERS rs w).1 !! k = Some reward ->
  let owned := stored w ++ take k (minted (serve CHARACTERS rs w).1) in
  (isFirstTime reward = true <->
   forall c, c ∈ owned -> characterId c <> characterId (card reward)) /\
  isDuplicate reward = negb (isFirstTime reward).
Proof.
  intros Hk owned.
  destruct (serve_nth _ _ _ _ _ Hk) as (req & wk & wk' & Hrun & Hwk).
  fold owned in Hwk.
  destruct (awardCard_reward_inv _ _ _ _ _ Hrun)
    as (cid & g & c & wr & ch & _ & _ & _ & _ & _ & _ & Hrw).
  cbv zeta in Hrw. rewrite Hrw.
  cbn [isFirstTime isDuplicate card characterId minted_card].
  split; [| reflexivity].
  rewrite Nat.eqb_eq, (cards_of_perm cid _ _ Hwk).
  apply cards_of_nil_iff.
Qed.

Lemma first_time_flag_witness :
  let w := fresh_world (1 # 10) (FetchOk 42) in
  map isFirstTime (rewards_of (serve demo_catalog three_awards w).1)
  = [true; true; false] /\
  exists reward,
    rewards_of (serve demo_catalog three_awards w).1 !! 2%nat = Some reward /\
    isFirstTime reward = false /\ isDuplicate reward = true.
Proof.
  intros w. split; [vm_compute; reflexivity |].
  destruct (rewards_of (serve demo_catalog three_awards w).1 !! 2%nat)
    as [reward |] eqn:Hk; [| vm_compute in Hk; discriminate].
  exists reward. split; [reflexivity |].
  destruct (first_time_flag demo_catalog three_awards w 2 reward Hk)
    as [Hiff Hdup].
  assert (Hfirst : isFirstTime reward = false)
    by (vm_compute in Hk; injection Hk as <-; reflexivity).
  split; [exact Hfirst |]. rewrite Hdup, Hfirst. reflexivity.
Defined.

Lemma score_clamped (g c wr : Q) (isWon : option bool) :
  (0 <= calculatePerformanceScore g c wr isWon <= 100)%Q.
Proof.
  unfold calculatePerformanceScore.
  destruct (is_falsy isWon); [split; [apply Qle_refl | discriminate] |].
  cbv zeta. split; [apply Q.le_max_l |].
  apply Q.max_lub; [discriminate | apply Q.le_min_l].
Qed.

(** X10.  A reward repeats the telemetry of its request, carries the score
    computed from it, and its bonus multiplier is that score divided by 100;
    for telemetry without negative numbers the multiplier is in [0, 1].  The
    card is for the requested character and has the catalog's name and clue
    image of that character. *)
Theorem reward_echoes_request CHARACTERS req (w : World) reward w' :
  awardCard CHARACTERS req w = (AwardSuccess reward, w') ->
  req_characterId req = Some (characterId (card reward)) /\
  req_guessTime req = Some (perf_guessTime (performance reward)) /\
  req_cluesUsed req = Some (perf_cluesUsed (performance reward)) /\
  req_wrongAttempts req = Some (perf_wrongAttempts (performance reward)) /\
  perf_score (performance reward)
  = calculatePerformanceScore (perf_guessTime (performance reward))
      (perf_cluesUsed (performance reward))
      (perf_wrongAttempts (performance reward)) (req_isWon req) /\
  bonusMultiplier reward = (perf_score (performance reward) / 100)%Q /\
  ((0 <= perf_guessTime (performance reward))%Q ->
   (0 <= perf_cluesUsed (performance reward))%Q ->
   (0 <= perf_wrongAttempts (performance reward))%Q ->
   (0 <= bonusMultiplier reward <= 1)%Q) /\
  exists character,
    find_character CHARACTERS (characterId (card reward)) = Some character /\
    characterName (card reward) = ch_name character /\
    imageUrl (card reward) = ch_imageUrl character /\
    id_character (card_id (card reward)) = characterId (card reward).
Proof.
  intros Hrun.
  destruct (awardCard_reward_inv _ _ _ _ _ Hrun)
    as (cid & g & c & wr & ch & Hcid & Hg & Hc & Hwr & _ & Hfind & Hrw).
  cbv zeta in Hrw. rewrite Hrw.
  cbn [card performance bonusMultiplier perf_guessTime perf_cluesUsed
       perf_wrongAttempts perf_score characterId characterName imageUrl
       card_id id_character minted_card].
  repeat (split; [first [assumption | reflexivity] |]).
  split.
  - intros _ _ _.
    pose proof (score_clamped g c wr (req_isWon req)) as [H0 H1].
    set (s := calculatePerformanceScore g c wr (req_isWon req)) in *.
    split.
    + apply Qle_shift_div_l; [reflexivity | lra].
    + apply Qle_shift_div_r; [reflexivity | lra].
  - exists ch. repeat split. exact Hfind.
Qed.

Lemma reward_echoes_request_witness :
  let w := fresh_world (1 # 10) (FetchOk 42) in
  exists reward w',
    awardCard demo_catalog (award_request "iron-man" 30 2 3 true) w
    = (AwardSuccess reward, w') /\
    perf_guessTime (performance reward) = 30%Q /\
    (bonusMultiplier reward == 35 # 100)%Q /\
    (0 <= bonusMultiplier reward <= 1)%Q /\
    characterName (card reward) = "Iron Man".
Proof.
  intros w.
  destruct (awardCard demo_catalog (award_request "iron-man" 30 2 3 true) w)
    as [[reward | st err] w'] eqn:Hrun; [| vm_compute in Hrun; discriminate].
  exists reward, w'. split; [reflexivity |].
  destruct (reward_echoes_request _ _ _ _ _ Hrun)
    as (Hcid & Hg & Hc & Hwr & Hs & Hb & Hrange & ch & Hfind & Hname & _).
  injection Hg as Hg. injection Hc as Hc. injection Hwr as Hwr.
  injection Hcid as Hcid.
  split; [now rewrite <- Hg |].
  split; [| split].
  - rewrite Hb, Hs, <- Hg, <- Hc, <- Hwr. reflexivity.
  - apply Hrange; [rewrite <- Hg | rewrite <- Hc | rewrite <- Hwr];
      discriminate.
  - rewrite Hname. rewrite <- Hcid in Hfind.
    vm_compute in Hfind. injection Hfind as <-. reflexivity.
Defined.

(** ** What runs of requests keep *)

Lemma getCollection_frame user (w : World) :
  let w' := (getCollection user w).2 in
  rand_src w' = rand_src w /\ rand_pos w' = rand_pos w /\
  clock_src w' = clock_src w /\ clock_pos w' = clock_pos w /\
  fetch_src w' = fetch_src w /\ fetch_pos w' = fetch_pos w /\
  errors_logged w' = errors_logged w /\
  (forall other, other <> user ->
     cardCollections w' !! other = cardCollections w !! other).
Proof.
  unfold getCollection. cbn [snd].
  case_bool_decide; (repeat split; try reflexivity).
  intros other Hne. cbn [cardCollections set_cardCollections].
  rewrite lookup_insert_ne by congruence. reflexivity.
Qed.

Lemma getCardCollection_frame CHARACTERS (w : World) :
  let w' := (getCardCollection CHARACTERS w).2 in
  rand_src w' = rand_src w /\ rand_pos w' = rand_pos w /\
  clock_src w' = clock_src w /\ clock_pos w' = clock_pos w /\
  fetch_src w' = fetch_src w /\ fetch_pos w' = fetch_pos w /\
  errors_logged w' = errors_logged w /\
  (forall other, other <> "default" ->
     cardCollections w' !! other = cardCollections w !! other).
Proof.
  pose proof (getCollection_frame "default" w) as Hg.
  unfold getCardCollection, bind, collection_sort, ret.
  destruct (getCollection "default" w) as [collection w1].
  cbn [snd] in Hg. cbn [snd].
  cbn [rand_src rand_pos clock_src clock_pos fetch_src fetch_pos
       errors_logged cardCollections set_cardCollections].
  destruct Hg as (H1 & H2 & H3 & H4 & H5 & H6 & H7 & H8).
  repeat (split; [assumption |]).
  intros other Hne. rewrite lookup_insert_ne by congruence. now apply H8.
Qed.

Lemma getAchievements_frame (w : World) :
  let w' := (getAchievements w).2 in
  rand_src w' = rand_src w /\ rand_pos w' = rand_pos w /\
  clock_src w' = clock_src w /\ clock_pos w' = clock_pos w /\
  fetch_src w' = fetch_src w /\ fetch_pos w' = fetch_pos w /\
  errors_logged w' = errors_logged w /\
  (forall other, other <> "default" ->
     cardCollections w' !! other = cardCollections w !! other).
Proof.
  pose proof (getCollection_frame "default" w) as Hg.
  unfold getAchievements, bind, ret.
  destruct (getCollection "default" w) as [collection w1].
  exact Hg.
Qed.

(** Every request leaves the random, clock and fetch sources and the
    collections of the other users as they are. *)
Lemma handle_frame CHARACTERS r (w : World) :
  let w' := (handle CHARACTERS r w).2 in
  rand_src w' = rand_src w /\ clock_src w' = clock_src w /\
  fetch_src w' = fetch_src w /\
  (forall other, other <> "default" ->
     cardCollections w' !! other = cardCollections w !! other).
Proof.
  destruct r as [req | |]; unfold handle, bind, ret.
  - destruct (awardCard CHARACTERS req w) as [[reward | st err] w1] eqn:Hrun;
      cbn [snd].
    + destruct (awardCard_inv _ _ _ _ _ Hrun)
        as (cid & g & c & wr & ch & _ & _ & _ & _ & _ & _ & Hpost).
      destruct Hpost as (_ & _ & _ & _ & Hstore & Hrs & _ & Hcs & Hfs & _).
      repeat (split; [assumption |]).
      intros other Hne. rewrite Hstore. now apply lookup_insert_ne.
    + destruct (awardCard_cases CHARACTERS req w)
        as [(st' & err' & _ & Hfail) | (? & ? & ? & ? & ? & ? & ? & H)].
      * rewrite Hfail in Hrun. injection Hrun as _ _ <-. repeat split.
      * destruct H as (_ & _ & _ & _ & _ & _ & Hok & _).
        rewrite Hok in Hrun. discriminate.
  - pose proof (getCardCollection_frame CHARACTERS w) as Hf.
    destruct (getCardCollection CHARACTERS w) as [res w1]. cbn [snd] in *.
    destruct Hf as (H1 & _ & H3 & _ & H5 & _ & _ & H8). repeat split; assumption.
  - pose proof (getAchievements_frame w) as Hf.
    destruct (getAchievements w) as [res w1]. cbn [snd] in *.
    destruct Hf as (H1 & _ & H3 & _ & H5 & _ & _ & H8). repeat split; assumption.
Qed.

(** X11.  No request removes or changes a stored card: after any run of
    requests the stored collection holds, up to order, exactly the cards
    stored before and the cards the run minted, so its length grows by the
    number of successful awards; the collections of other users are never
    touched. *)
Theorem store_only_grows CHARACTERS rs (w : World) :
  let w' := (serve CHARACTERS rs w).2 in
  let replies := (serve CHARACTERS rs w).1 in
  stored w' ≡ₚ stored w ++ minted replies /\
  length (stored w') = (length (stored w) + length (rewards_of replies))%nat /\
  (forall other, other <> "default" ->
     cardCollections w' !! other = cardCollections w !! other).
Proof.
  cbv zeta.
  assert (H : stored (serve CHARACTERS rs w).2
              ≡ₚ stored w ++ minted (serve CHARACTERS rs w).1 /\
              (forall other, other <> "default" ->
                 cardCollections (serve CHARACTERS rs w).2 !! other
                 = cardCollections w !! other)).
  { revert w. induction rs as [| r rs IH]; intros w.
    - cbn. split; [now rewrite app_nil_r | reflexivity].
    - rewrite serve_cons. cbn [fst snd].
      destruct (IH (handle CHARACTERS r w).2) as [IHp IHo].
      pose proof (handle_cases CHARACTERS r w) as Hh.
      destruct (handle_frame CHARACTERS r w) as (_ & _ & _ & Hother).
      split.
      + rewrite IHp. unfold minted. rewrite rewards_of_cons.
        destruct (reward_of (handle CHARACTERS r w).1) as [rw0 |].
        * destruct Hh as (req & _ & ->). cbn [map]. now rewrite <- app_assoc.
        * now rewrite Hh.
      + intros other Hne. rewrite IHo by exact Hne. now apply Hother. }
  destruct H as [Hp Ho]. split; [exact Hp |]. split; [| exact Ho].
  rewrite Hp, length_app. unfold minted. now rewrite length_map.
Qed.

Lemma store_only_grows_witness :
  let w := fresh_world (1 # 10) (FetchOk 42) in
  length (stored (serve demo_catalog script_requests w).2) = 2%nat /\
  cardCollections (serve demo_catalog script_requests w).2 !! "someone-else"
  = None.
Proof.
  intros w.
  destruct (store_only_grows demo_catalog script_requests w)
    as (_ & Hlen & Hother).
  split.
  - rewrite Hlen. vm_compute. reflexivity.
  - rewrite Hother by discriminate. reflexivity.
Defined.

Lemma stats_ok_minted CHARACTERS req (w : World) reward w' :
  rng_valid w -> oracle_scores_valid w ->
  awardCard CHARACTERS req w = (AwardSuccess reward, w') ->
  stats_ok (card reward) /\
  (30 <= popularity (stats (card reward)) < 80)%Z /\
  (20 <= power (stats (card reward)) < 90)%Z.
Proof.
  intros Hrng Hor Hrun.
  destruct (awardCard_inv _ _ _ _ _ Hrun)
    as (cid & g & c & wr & ch & _ & _ & _ & _ & _ & _ & Hcard & _).
  rewrite Hcard. unfold stats_ok. cbn [stats minted_card].
  destruct (stats_from_range ch (rand_src w) (2 + rand_pos w)
              (fetch_src w (fetch_pos w)) Hrng (Hor (fetch_pos w)))
    as (Hpop & Hdif & Hpow & _).
  repeat split; lia.
Qed.

(** X12.  When every random number is in [0, 1) and every successful answer
    of the difficulty service carries a score in [0, 100], every card a run
    of requests mints has its popularity in [30, 80), its difficulty in
    [0, 100] and its power in [20, 90); so if the stats of all stored cards
    are in [0, 100] before the run, they are after it. *)
Theorem stored_stats_stay_in_range CHARACTERS rs :
  forall w : World,
    rng_valid w -> oracle_scores_valid w ->
    Forall (fun c => stats_ok c /\
                     (30 <= popularity (stats c) < 80)%Z /\
                     (20 <= power (stats c) < 90)%Z)
      (minted (serve CHARACTERS rs w).1) /\
    (Forall stats_ok (stored w) ->
     Forall stats_ok (stored (serve CHARACTERS rs w).2)).
Proof.
  induction rs as [| r rs IH]; intros w Hrng Hor.
  - cbn. split; [constructor | tauto].
  - rewrite serve_cons. cbn [fst snd].
    destruct (handle_frame CHARACTERS r w) as (Hrs & _ & Hfs & _).
    assert (Hrng1 : rng_valid (handle CHARACTERS r w).2)
      by (intros n; rewrite Hrs; apply Hrng).
    assert (Hor1 : oracle_scores_valid (handle CHARACTERS r w).2)
      by (intros n s; rewrite Hfs; apply Hor).
    destruct (IH _ Hrng1 Hor1) as [IHm IHs].
    pose proof (handle_cases CHARACTERS r w) as Hh.
    unfold minted in *. rewrite rewards_of_cons.
    destruct (reward_of (handle CHARACTERS r w).1) as [rw0 |].
    + destruct Hh as (req & Hrun & Hst).
      pose proof (stats_ok_minted _ _ _ _ _ Hrng Hor Hrun) as Hok.
      split.
      * cbn [map]. constructor; assumption.
      * intros Hall. apply IHs. rewrite Hst.
        apply Forall_app. split; [exact Hall |].
        constructor; [exact (proj1 Hok) | constructor].
    + split; [exact IHm |].
      intros Hall. apply IHs. now rewrite Hh.
Qed.

Lemma stored_stats_stay_in_range_witness :
  let w := fresh_world (1 # 10) FetchRejects in
  Forall stats_ok (stored (serve demo_catalog script_requests w).2) /\
  map (fun c => difficulty (stats c))
    (stored (serve demo_catalog script_requests w).2) = [10; 10]%Z.
Proof.
  intros w.
  assert (Hrng : rng_valid w).
  { intros n. split; [discriminate | reflexivity]. }
  assert (Hor : oracle_scores_valid w) by (intros n s H; discriminate H).
  destruct (stored_stats_stay_in_range demo_catalog script_requests w
              Hrng Hor) as [_ Hst].
  split; [apply Hst; constructor | vm_compute; reflexivity].
Defined.

(** ** Serial numbers in the store *)

Lemma serials_consistent_perm (l l' : list CharacterCard) :
  l ≡ₚ l' -> serials_consistent l -> serials_consistent l'.
Proof.
  intros Hp [Hnd Hb]. split.
  - now rewrite <- Hp.
  - intros c Hc. rewrite <- Hp in Hc.
    rewrite <- (cards_of_perm _ _ _ Hp). now apply Hb.
Qed.

Lemma serials_consistent_push (l : list CharacterCard) (c : CharacterCard) :
  serials_consistent l ->
  serialNumber c = (length (cards_of (characterId c) l) + 1)%nat ->
  serials_consistent (l ++ [c]).
Proof.
  intros [Hnd Hb] Hs. split.
  - rewrite map_app. apply NoDup_app. split; [exact Hnd |]. split.
    + intros p Hp Hp'. apply list_elem_of_singleton in Hp'. subst p.
      apply list_elem_of_fmap in Hp as (c' & Heq & Hin).
      injection Heq as Hid Hser.
      specialize (Hb c' Hin). rewrite <- Hid, <- Hser in Hb. lia.
    + apply NoDup_singleton.
  - intros c' Hin. unfold cards_of in *. rewrite filter_app, length_app.
    apply elem_of_app in Hin as [Hin | Hin].
    + specialize (Hb c' Hin). lia.
    + apply list_elem_of_singleton in Hin. subst c'.
      rewrite filter_cons_True by reflexivity. cbn [length filter].
      rewrite filter_nil. cbn [length]. lia.
Qed.

(** X13.  Serial numbers stay consistent in the store as long as requests
    are served one after another, each handled to its reply before the next
    one starts (the runs of [serve]): if no two stored cards of one
    character share a serial number and every stored card's serial number
    is between 1 and the number of stored cards of its character, the same
    holds after any such run.  It holds for the empty store a process starts
    with.  Awards that overlap are outside this statement: [awardCard]
    counts the owned cards before it awaits the difficulty service and
    pushes the card after it. *)
Theorem serials_stay_consistent CHARACTERS rs :
  forall w : World,
    serials_consistent (stored w) ->
    serials_consistent (stored (serve CHARACTERS rs w).2).
Proof.
  induction rs as [| r rs IH]; intros w Hw; [exact Hw |].
  rewrite serve_cons. cbn [snd]. apply IH.
  pose proof (handle_cases CHARACTERS r w) as Hh.
  destruct (reward_of (handle CHARACTERS r w).1) as [rw0 |].
  - destruct Hh as (req & Hrun & ->).
    apply serials_consistent_push; [exact Hw |].
    exact (proj1 (awardCard_serial _ _ _ _ _ Hrun)).
  - apply (serials_consistent_perm (stored w)); [now symmetry | exact Hw].
Qed.

Lemma serials_stay_consistent_witness :
  let w := fresh_world (1 # 10) (FetchOk 42) in
  serials_consistent (stored w) /\
  serials_consistent (stored (serve demo_catalog three_awards w).2) /\
  map (fun c => (characterId c, serialNumber c))
    (stored (serve demo_catalog three_awards w).2)
  = [("spider-man", 1%nat); ("iron-man", 1%nat); ("spider-man", 2%nat)].
Proof.
  intros w.
  assert (H0 : serials_consistent (stored w)).
  { split; [constructor | intros c Hc; inversion Hc]. }
  split; [exact H0 |].
  split; [exact (serials_stay_consistent demo_catalog three_awards w H0) |].
  vm_compute. reflexivity.
Defined.

(** ** The collection reply *)

Lemma getCardCollection_reply CHARACTERS (w : World) :
  (getCardCollection CHARACTERS w).1 =
    {| cards := Array_sort newest_first (stored w);
       totalCards := length (Array_sort newest_first (stored w));
       uniqueCharacters :=
         size (list_to_set (map characterId (stored w)) : gset string);
       rarityCount :=
         foldl fill_rarity (foldl count_rarity ∅ (stored w)) allRarities;
       completionPercentage :=
         (inject_Z (Z.of_nat
            (size (list_to_set (map characterId (stored w)) : gset string)))
          / inject_Z (Z.of_nat (length CHARACTERS)) * 100)%Q |}.
Proof.
  unfold getCardCollection. unfold bind at 1. rewrite getCollection_run.
  unfold bind, collection_sort, ret. cbn [fst].
  assert (Hst : default []
                  (cardCollections
                     (if bool_decide (is_Some (cardCollections w !! "default"))
                      then w
                      else set_cardCollections
                             (<["default" := []]> (cardCollections w)) w)
                   !! "default") = stored w).
  { unfold stored. case_bool_decide as Hs; [reflexivity |].
    cbn [cardCollections set_cardCollections]. rewrite lookup_insert_eq.
    destruct (cardCollections w !! "default") eqn:E; [| reflexivity].
    exfalso. apply Hs. eauto. }
  rewrite Hst. reflexivity.
Qed.

Lemma sort_insert_sorted (x : CharacterCard) (l : list CharacterCard) :
  newest_first_sorted l -> newest_first_sorted (sort_insert newest_first x l).
Proof.
  unfold newest_first_sorted.
  induction 1 as [| y l Hl IH Hy]; cbn [sort_insert].
  - repeat constructor.
  - unfold newest_first at 1.
    destruct (Z.leb_spec (unlockedAt y - unlockedAt x) 0) as [Hle | Hgt].
    + constructor; [constructor; assumption |].
      constructor; [lia |].
      eapply Forall_impl; [exact Hy |]. cbn. intros z Hz. lia.
    + constructor; [exact IH |].
      rewrite sort_insert_perm. constructor; [lia | exact Hy].
Qed.

Lemma Array_sort_sorted (l : list CharacterCard) :
  newest_first_sorted (Array_sort newest_first l).
Proof.
  induction l as [| x l IH]; cbn; [constructor |].
  now apply sort_insert_sorted.
Qed.

Lemma sort_insert_stable (t : Z) (x : CharacterCard) (l : list CharacterCard) :
  filter (fun c => unlockedAt c = t) (sort_insert newest_first x l)
  = filter (fun c => unlockedAt c = t) (x :: l).
Proof.
  induction l as [| y l IH]; cbn [sort_insert]; [reflexivity |].
  unfold newest_first at 1.
  destruct (Z.leb_spec (unlockedAt y - unlockedAt x) 0) as [Hle | Hgt];
    [reflexivity |].
  rewrite filter_cons, IH, !filter_cons.
  repeat case_decide; try reflexivity. lia.
Qed.

Lemma Array_sort_stable (t : Z) (l : list CharacterCard) :
  filter (fun c => unlockedAt c = t) (Array_sort newest_first l)
  = filter (fun c => unlockedAt c = t) l.
Proof.
  induction l as [| x l IH]; cbn [Array_sort foldr]; [reflexivity |].
  change (foldr (sort_insert newest_first) [] l)
    with (Array_sort newest_first l).
  rewrite sort_insert_stable, !filter_cons, IH. reflexivity.
Qed.

(** X14.  The [cards] of a collection reply are the stored cards, newest
    first: a permutation of the stored array in which no card is followed by
    a newer one and cards with the same timestamp keep their stored order.
    [totalCards] is their number.  The reply's array is the stored array:
    after the call the store holds the cards in the reply's order. *)
Theorem collection_reply_newest_first CHARACTERS (w : World) :
  let res := (getCardCollection CHARACTERS w).1 in
  cards res ≡ₚ stored w /\
  newest_first_sorted (cards res) /\
  (forall t, filter (fun c => unlockedAt c = t) (cards res)
             = filter (fun c => unlockedAt c = t) (stored w)) /\
  totalCards res = length (stored w) /\
  stored (getCardCollection CHARACTERS w).2 = cards res.
Proof.
  cbv zeta. rewrite getCardCollection_reply, getCardCollection_stored.
  cbn [cards totalCards].
  split; [apply Array_sort_perm |].
  split; [apply Array_sort_sorted |].
  split; [intros t; apply Array_sort_stable |].
  split; [| reflexivity].
  apply Permutation_length, Array_sort_perm.
Qed.

(** The number of cards of rarity [r]. *)
Lemma count_rarity_lookup (acc : gmap CardRarity nat) (c : CharacterCard)
    (r : CardRarity) :
  default 0%nat (count_rarity acc c !! r)
  = (default 0 (acc !! r) + if decide (rarity c = r) then 1 else 0)%nat.
Proof.
  unfold count_rarity. case_decide as Hr.
  - subst r. now rewrite lookup_insert_eq.
  - rewrite lookup_insert_ne by exact Hr. lia.
Qed.

Lemma foldl_count_rarity (l : list CharacterCard) :
  forall (acc : gmap CardRarity nat) (r : CardRarity),
    default 0%nat (foldl count_rarity acc l !! r)
    = (default 0 (acc !! r)
       + length (filter (fun c => rarity c = r) l))%nat.
Proof.
  induction l as [| c l IH]; intros acc r; cbn [foldl].
  - cbn. lia.
  - rewrite IH, count_rarity_lookup, filter_cons.
    case_decide; cbn [length]; lia.
Qed.

Lemma fill_rarity_lookup (acc : gmap CardRarity nat) (r r' : CardRarity) :
  default 0%nat (fill_rarity acc r !! r') = default 0%nat (acc !! r') /\
  (is_Some (acc !! r') \/ r = r' -> is_Some (fill_rarity acc r !! r')).
Proof.
  unfold fill_rarity.
  destruct (acc !! r) as [[| n] |] eqn:E.
  - destruct (decide (r = r')) as [<- | Hne].
    + rewrite lookup_insert_eq, E. split; [reflexivity | eauto].
    + rewrite lookup_insert_ne by exact Hne. split; [reflexivity |].
      intros [H | H]; [exact H | contradiction].
  - split; [reflexivity |]. intros [H | <-]; [exact H | rewrite E; eauto].
  - destruct (decide (r = r')) as [<- | Hne].
    + rewrite lookup_insert_eq, E. split; [reflexivity | eauto].
    + rewrite lookup_insert_ne by exact Hne. split; [reflexivity |].
      intros [H | H]; [exact H | contradiction].
Qed.

Lemma foldl_fill_rarity (rs : list CardRarity) :
  forall (acc : gmap CardRarity nat) (r' : CardRarity),
    default 0%nat (foldl fill_rarity acc rs !! r') = default 0%nat (acc !! r')
    /\ (is_Some (acc !! r') \/ r' ∈ rs ->
        is_Some (foldl fill_rarity acc rs !! r')).
Proof.
  induction rs as [| r rs IH]; intros acc r'; cbn [foldl].
  - split; [reflexivity |]. intros [H | H]; [exact H | inversion H].
  - destruct (IH (fill_rarity acc r) r') as [IHd IHs].
    destruct (fill_rarity_lookup acc r r') as [Hd Hs].
    split; [now rewrite IHd |].
    intros [H | H]; apply IHs.
    + left. apply Hs. now left.
    + apply elem_of_cons in H as [-> | H]; [left; apply Hs; now right |].
      now right.
Qed.

Lemma rarityCount_exact (l : list CharacterCard) (r : CardRarity) :
  foldl fill_rarity (foldl count_rarity ∅ l) allRarities !! r
  = Some (length (filter (fun c => rarity c = r) l)).
Proof.
  destruct (foldl_fill_rarity allRarities (foldl count_rarity ∅ l) r)
    as [Hd Hs].
  rewrite foldl_count_rarity, lookup_empty in Hd.
  destruct Hs as [n Hn].
  { right. destruct r; unfold allRarities;
      repeat first [apply list_elem_of_here | apply list_elem_of_further]. }
  rewrite Hn in Hd |- *. cbn in Hd. now rewrite Hd.
Qed.

Lemma length_by_rarity (l : list CharacterCard) :
  length l
  = (length (filter (fun c => rarity c = common) l)
     + length (filter (fun c => rarity c = rare) l)
     + length (filter (fun c => rarity c = epic) l)
     + length (filter (fun c => rarity c = legendary) l)
     + length (filter (fun c => rarity c = mythic) l))%nat.
Proof.
  induction l as [| c l IH]; [reflexivity |].
  rewrite !filter_cons. cbn [length].
  destruct (rarity c); repeat case_decide; try congruence; cbn [length]; lia.
Qed.

(** X15.  [rarityCount] of a collection reply has an entry for each of the
    five rarities, also for those no stored card has, and the entry is the
    number of stored cards of that rarity; the five entries add up to
    [totalCards]. *)
Theorem rarity_counts_are_exact CHARACTERS (w : World) :
  let res := (getCardCollection CHARACTERS w).1 in
  (forall r, rarityCount res !! r
             = Some (length (filter (fun c => rarity c = r) (stored w)))) /\
  (default 0 (rarityCount res !! common)
   + default 0 (rarityCount res !! rare)
   + default 0 (rarityCount res !! epic)
   + default 0 (rarityCount res !! legendary)
   + default 0 (rarityCount res !! mythic))%nat = totalCards res.
Proof.
  cbv zeta. rewrite getCardCollection_reply. cbn [rarityCount totalCards].
  split; [intros r; apply rarityCount_exact |].
  rewrite !rarityCount_exact. cbn [default from_option id].
  rewrite (Permutation_length (Array_sort_perm newest_first (stored w))).
  symmetry. apply length_by_rarity.
Qed.

Lemma size_ids_remove_dups (ids : list string) :
  size (list_to_set ids : gset string) = length (remove_dups ids).
Proof.
  rewrite <- (size_list_to_set (C := gset string) (remove_dups ids))
    by apply NoDup_remove_dups.
  f_equal. apply set_eq. intros x.
  now rewrite !elem_of_list_to_set, elem_of_remove_dups.
Qed.

Lemma length_remove_dups_le (ids : list string) :
  (length (remove_dups ids) <= length ids)%nat.
Proof.
  apply submseteq_length, NoDup_submseteq; [apply NoDup_remove_dups |].
  intros x. now rewrite elem_of_remove_dups.
Qed.

(** X16.  [uniqueCharacters] of a collection reply is the number of
    different character ids among the stored cards; it is at most
    [totalCards], and it is 0 only for an empty collection. *)
Theorem unique_characters_counts_ids CHARACTERS (w : World) :
  let res := (getCardCollection CHARACTERS w).1 in
  uniqueCharacters res
  = length (remove_dups (map characterId (stored w))) /\
  (uniqueCharacters res <= totalCards res)%nat /\
  (uniqueCharacters res = 0%nat <-> stored w = []).
Proof.
  cbv zeta. rewrite getCardCollection_reply.
  cbn [uniqueCharacters totalCards].
  rewrite size_ids_remove_dups.
  rewrite (Permutation_length (Array_sort_perm newest_first (stored w))).
  split; [reflexivity |]. split.
  - rewrite <- (length_map characterId (stored w)).
    apply length_remove_dups_le.
  - destruct (stored w) as [| c l]; [split; reflexivity |].
    split; [| discriminate].
    intros H. exfalso.
    assert (Hin : characterId c ∈ remove_dups (map characterId (c :: l)))
      by (apply elem_of_remove_dups; left).
    destruct (remove_dups (map characterId (c :: l)));
      [inversion Hin | discriminate H].
Qed.

Lemma find_character_in_catalog CHARACTERS cid character :
  find_character CHARACTERS cid = Some character ->
  cid ∈ map ch_id CHARACTERS.
Proof.
  unfold find_character. intros H. apply find_some in H as [Hin Hid].
  apply bool_decide_eq_true in Hid. subst cid.
  apply list_elem_of_fmap. exists character. split; [reflexivity |].
  now apply list_elem_of_In.
Qed.

Lemma cards_in_catalog_serve CHARACTERS rs :
  forall w : World,
    cards_in_catalog CHARACTERS (stored w) ->
    cards_in_catalog CHARACTERS (stored (serve CHARACTERS rs w).2).
Proof.
  induction rs as [| r rs IH]; intros w Hw; [exact Hw |].
  rewrite serve_cons. cbn [snd]. apply IH.
  pose proof (handle_cases CHARACTERS r w) as Hh.
  destruct (reward_of (handle CHARACTERS r w).1) as [rw0 |].
  - destruct Hh as (req & Hrun & ->).
    destruct (awardCard_inv _ _ _ _ _ Hrun)
      as (cid & g & c & wr & ch & _ & _ & _ & _ & _ & Hfind & Hcard & _).
    intros c' Hin. apply elem_of_app in Hin as [Hin | Hin]; [now apply Hw |].
    apply list_elem_of_singleton in Hin. subst c'. rewrite Hcard.
    cbn [characterId minted_card].
    exact (find_character_in_catalog _ _ _ Hfind).
  - intros c' Hin. apply Hw. now rewrite <- Hh.
Qed.

(** X17.  Every card a run of requests stores belongs to a character of the
    catalog: if that holds for the stored cards before the run (as for the
    empty store of a fresh process), then after the run a collection reply
    counts at most as many unique characters as the catalog has entries, and
    for a non-empty catalog its completion percentage is at most 100. *)
Theorem completion_at_most_100 CHARACTERS rs (w : World) :
  cards_in_catalog CHARACTERS (stored w) ->
  let w' := (serve CHARACTERS rs w).2 in
  let res := (getCardCollection CHARACTERS w').1 in
  cards_in_catalog CHARACTERS (stored w') /\
  (uniqueCharacters res <= length CHARACTERS)%nat /\
  (CHARACTERS <> [] ->
   (0 <= completionPercentage res <= 100)%Q).
Proof.
  intros Hw w' res.
  pose proof (cards_in_catalog_serve CHARACTERS rs w Hw) as Hin.
  fold w' in Hin. split; [exact Hin |].
  subst res. rewrite getCardCollection_reply.
  cbn [uniqueCharacters completionPercentage].
  set (u := size (list_to_set (map characterId (stored w')) : gset string)).
  assert (Hu : (u <= length CHARACTERS)%nat).
  { subst u.
    transitivity (size (list_to_set (map ch_id CHARACTERS) : gset string)).
    - apply subseteq_size. intros x.
      rewrite !elem_of_list_to_set. intros Hx.
      apply list_elem_of_fmap in Hx as (c & -> & Hc). now apply Hin.
    - rewrite size_ids_remove_dups.
      rewrite <- (length_map ch_id CHARACTERS). apply length_remove_dups_le. }
  split; [exact Hu |].
  intros Hne.
  assert (Hn : (0 < length CHARACTERS)%nat)
    by (destruct CHARACTERS; [contradiction | cbn; lia]).
  assert (Hnq : (0 < inject_Z (Z.of_nat (length CHARACTERS)))%Q).
  { change 0%Q with (inject_Z 0). rewrite <- Zlt_Qlt. lia. }
  assert (Huq : (0 <= inject_Z (Z.of_nat u))%Q).
  { change 0%Q with (inject_Z 0). rewrite <- Zle_Qle. lia. }
  assert (Hle : (inject_Z (Z.of_nat u)
                 <= inject_Z (Z.of_nat (length CHARACTERS)))%Q).
  { rewrite <- Zle_Qle. lia. }
  set (a := inject_Z (Z.of_nat u)) in *.
  set (b := inject_Z (Z.of_nat (length CHARACTERS))) in *.
  assert (Hdiv : (0 <= a / b /\ a / b <= 1)%Q).
  { split.
    - apply Qle_shift_div_l; [exact Hnq | lra].
    - apply Qle_shift_div_r; [exact Hnq | lra]. }
  destruct Hdiv as [Hd0 Hd1]. split; lra.
Qed.

Lemma completion_at_most_100_witness :
  let w := fresh_world (1 # 10) (FetchOk 42) in
  let res := (getCardCollection demo_catalog
                (serve demo_catalog three_awards w).2).1 in
  uniqueCharacters res = 2%nat /\ totalCards res = 3%nat /\
  (0 <= completionPercentage res <= 100)%Q.
Proof.
  intros w res.
  assert (H0 : cards_in_catalog demo_catalog (stored w))
    by (intros c Hc; inversion Hc).
  destruct (completion_at_most_100 demo_catalog three_awards w H0)
    as (_ & _ & Hpct).
  split; [vm_compute; reflexivity |].
  split; [vm_compute; reflexivity |].
  apply Hpct. discriminate.
Defined.

Lemma Array_sort_sorted_id (l : list CharacterCard) :
  newest_first_sorted l -> Array_sort newest_first l = l.
Proof.
  unfold newest_first_sorted.
  induction 1 as [| x l Hl IH Hx]; [reflexivity |].
  cbn [Array_sort foldr].
  change (foldr (sort_insert newest_first) [] l)
    with (Array_sort newest_first l).
  rewrite IH. destruct l as [| y l']; [reflexivity |].
  cbn [sort_insert]. unfold newest_first.
  apply Forall_cons in Hx as [Hy _].
  destruct (Z.leb_spec (unlockedAt y - unlockedAt x) 0); [reflexivity | lia].
Qed.

(** X18.  Reading the collection twice in a row gives the same reply twice,
    and the second read leaves the store exactly as the first one left
    it. *)
Theorem collection_read_is_idempotent CHARACTERS (w : World) :
  let first := getCardCollection CHARACTERS w in
  getCardCollection CHARACTERS first.2 = first.
Proof.
  cbv zeta.
  assert (Hst : stored (getCardCollection CHARACTERS w).2
                = Array_sort newest_first (stored w))
    by apply getCardCollection_stored.
  apply injective_projections.
  - rewrite !getCardCollection_reply, Hst.
    rewrite (Array_sort_sorted_id _ (Array_sort_sorted (stored w))).
    assert (Hids : (list_to_set (map characterId
                      (Array_sort newest_first (stored w))) : gset string)
                   = list_to_set (map characterId (stored w))).
    { apply set_eq. intros x. rewrite !elem_of_list_to_set.
      now rewrite (Array_sort_perm newest_first (stored w)). }
    rewrite Hids. f_equal.
    apply map_eq. intros r. now rewrite !rarityCount_exact,
      (Array_sort_perm newest_first (stored w)).
  - unfold getCardCollection at 1. unfold bind at 1.
    rewrite getCollection_run.
    set (w1 := (getCardCollection CHARACTERS w).2) in *.
    assert (Hsome : is_Some (cardCollections w1 !! "default")).
    { subst w1. unfold getCardCollection, bind, collection_sort, ret.
      destruct (getCollection "default" w) as [l w0]. cbn [snd].
      cbn [cardCollections set_cardCollections].
      rewrite lookup_insert_eq. eauto. }
    rewrite bool_decide_eq_true_2 by exact Hsome.
    unfold bind, collection_sort, ret. cbn [snd].
    change (default [] (cardCollections w1 !! "default")) with (stored w1).
    rewrite Hst.
    rewrite (Array_sort_sorted_id _ (Array_sort_sorted (stored w))).
    assert (Hid : <["default" := Array_sort newest_first (stored w)]>
                    (cardCollections w1) = cardCollections w1).
    { apply insert_id. unfold stored in Hst.
      destruct Hsome as [l Hl]. rewrite Hl in Hst |- *. cbn in Hst.
      now rewrite Hst. }
    rewrite Hid. destruct w1; reflexivity.
Qed.

Lemma Array_sort_snoc_newest (l : list CharacterCard) (c : CharacterCard) :
  (forall x, x ∈ l -> (unlockedAt x < unlockedAt c)%Z) ->
  Array_sort newest_first (l ++ [c]) = c :: Array_sort newest_first l.
Proof.
  induction l as [| x l IH]; intros Hnew; [reflexivity |].
  cbn [app Array_sort foldr].
  change (foldr (sort_insert newest_first) [] (l ++ [c]))
    with (Array_sort newest_first (l ++ [c])).
  change (foldr (sort_insert newest_first) [] l)
    with (Array_sort newest_first l).
  rewrite IH by (intros y Hy; apply Hnew; now right).
  cbn [sort_insert]. unfold newest_first at 1.
  assert (Hx : (unlockedAt x < unlockedAt c)%Z) by (apply Hnew; left).
  destruct (Z.leb_spec (unlockedAt c - unlockedAt x) 0); [lia | reflexivity].
Qed.

(** X19.  An award followed by a read of the collection: when the new card's
    timestamp is later than that of every card stored before, the reply
    lists the new card first, followed by the older cards newest first;
    [totalCards] has grown by one and the count of the new card's rarity by
    exactly one. *)
Theorem new_card_is_listed_first CHARACTERS req (w : World) reward w' :
  awardCard CHARACTERS req w = (AwardSuccess reward, w') ->
  (forall c, c ∈ stored w -> (unlockedAt c < unlockedAt (card reward))%Z) ->
  let before := (getCardCollection CHARACTERS w).1 in
  let after := (getCardCollection CHARACTERS w').1 in
  cards after = card reward :: cards before /\
  totalCards after = S (totalCards before) /\
  (forall r,
     default 0%nat (rarityCount after !! r)
     = (default 0 (rarityCount before !! r)
        + if decide (rarity (card reward) = r) then 1 else 0)%nat).
Proof.
  intros Hrun Hnew before after. subst before after.
  destruct (awardCard_inv _ _ _ _ _ Hrun)
    as (cid & g & c & wr & ch & _ & _ & _ & _ & _ & _ & Hpost).
  pose proof (award_post_stored _ _ _ _ _ _ _ _ _ Hpost) as Hst.
  rewrite !getCardCollection_reply. cbn [cards totalCards rarityCount].
  rewrite Hst, (Array_sort_snoc_newest _ _ Hnew).
  split; [reflexivity |]. split; [reflexivity |].
  intros r. rewrite !rarityCount_exact. cbn [default from_option id].
  rewrite filter_app, length_app, filter_cons, filter_nil.
  case_decide; reflexivity.
Qed.

Lemma new_card_is_listed_first_witness :
  let w := (serve demo_catalog three_awards
              (fresh_world (1 # 10) (FetchOk 42))).2 in
  exists reward w',
    awardCard demo_catalog (award_request "iron-man" 0 0 0 true) w
    = (AwardSuccess reward, w') /\
    head (cards (getCardCollection demo_catalog w').1) = Some (card reward) /\
    totalCards (getCardCollection demo_catalog w').1 = 4%nat.
Proof.
  intros w.
  destruct (awardCard demo_catalog (award_request "iron-man" 0 0 0 true) w)
    as [[reward | st err] w'] eqn:Hrun; [| vm_compute in Hrun; discriminate].
  exists reward, w'. split; [reflexivity |].
  assert (Hnew : forall c, c ∈ stored w ->
                           (unlockedAt c < unlockedAt (card reward))%Z).
  { assert (Ht : unlockedAt (card reward) = 9000%Z)
      by (vm_compute in Hrun; injection Hrun as <- _; reflexivity).
    rewrite Ht. intros c Hc.
    assert (Hall : Forall (fun c => (unlockedAt c < 9000)%Z) (stored w))
      by (vm_compute; repeat constructor).
    rewrite Forall_forall in Hall. now apply Hall. }
  destruct (new_card_is_listed_first _ _ _ _ _ Hrun Hnew) as (Hc & Ht & _).
  split; [rewrite Hc; reflexivity |].
  rewrite Ht. vm_compute. reflexivity.
Defined.

(** ** The achievements view *)

Lemma getAchievements_reply (w : World) :
  (getAchievements w).1 =
    [ {| ach_id := "first-card"; ach_name := "First Card";
         ach_description := "Unlock your first character card";
         ach_icon := "🎴";
         ach_progress := Nat.min (length (stored w)) 1;
         ach_maxProgress := 1;
         ach_unlockedAt := unlockedAt_nth (stored w) 1 |};
      {| ach_id := "collector"; ach_name := "Collector";
         ach_description := "Unlock 10 character cards";
         ach_icon := "📚";
         ach_progress := Nat.min (length (stored w)) 10;
         ach_maxProgress := 10;
         ach_unlockedAt := unlockedAt_nth (stored w) 10 |};
      {| ach_id := "master-collector"; ach_name := "Master Collector";
         ach_description := "Unlock 50 character cards";
         ach_icon := "🏆";
         ach_progress := Nat.min (length (stored w)) 50;
         ach_maxProgress := 50;
         ach_unlockedAt := unlockedAt_nth (stored w) 50 |};
      {| ach_id := "legendary-pull"; ach_name := "Legendary Pull";
         ach_description := "Unlock your first legendary card";
         ach_icon := "🌟";
         ach_progress :=
           Nat.min
             (length (filter (fun c => rarity c = legendary) (stored w))) 1;
         ach_maxProgress := 1;
         ach_unlockedAt := unlockedAt_first (stored w) legendary |};
      {| ach_id := "mythic-hunter"; ach_name := "Mythic Hunter";
         ach_description := "Unlock a mythic card";
         ach_icon := "⭐";
         ach_progress :=
           Nat.min
             (length (filter (fun c => rarity c = mythic) (stored w))) 1;
         ach_maxProgress := 1;
         ach_unlockedAt := unlockedAt_first (stored w) mythic |} ].
Proof.
  unfold getAchievements, bind, ret. rewrite getCollection_run. reflexivity.
Qed.

Lemma unlockedAt_nth_lookup (l : list CharacterCard) (n : nat) :
  (1 <= n)%nat ->
  unlockedAt_nth l n = unlockedAt <$> l !! (n - 1)%nat /\
  (is_Some (unlockedAt_nth l n) <-> (n <= length l)%nat).
Proof.
  intros Hn. unfold unlockedAt_nth.
  destruct (Nat.leb_spec n (length l)) as [Hle | Hgt].
  - split; [reflexivity |]. rewrite fmap_is_Some, lookup_lt_is_Some.
    split; [intros _; exact Hle | intros _; lia].
  - rewrite (lookup_ge_None_2 l (n - 1)) by lia.
    split; [reflexivity |].
    split; [intros [x Hx]; discriminate Hx | lia].
Qed.

Lemma find_rarity_is_Some (l : list CharacterCard) (r : CardRarity) :
  is_Some (unlockedAt_first l r) <-> exists c, c ∈ l /\ rarity c = r.
Proof.
  unfold unlockedAt_first. rewrite fmap_is_Some.
  induction l as [| x l IH]; cbn [List.find].
  - split; [intros [y Hy]; discriminate Hy | intros (c & Hc & _); inversion Hc].
  - case_bool_decide as Hx.
    + split; [intros _; exists x; split; [left | exact Hx] | eauto].
    + rewrite IH. split.
      * intros (c & Hc & Hr). exists c. split; [now right | exact Hr].
      * intros (c & Hc & Hr).
        apply elem_of_cons in Hc as [-> | Hc]; [contradiction |].
        exists c. split; assumption.
Qed.

Lemma filter_rarity_min (l : list CharacterCard) (r : CardRarity) :
  Nat.min (length (filter (fun c => rarity c = r) l)) 1 = 1%nat <->
  exists c, c ∈ l /\ rarity c = r.
Proof.
  split.
  - intros H.
    destruct (filter (fun c => rarity c = r) l) as [| x xs] eqn:E;
      [discriminate H |].
    assert (Hx : x ∈ filter (fun c => rarity c = r) l) by (rewrite E; left).
    apply list_elem_of_filter in Hx as [Hr Hin]. eauto.
  - intros (c & Hc & Hr).
    assert (Hx : c ∈ filter (fun c => rarity c = r) l)
      by (apply list_elem_of_filter; split; assumption).
    destruct (filter (fun c => rarity c = r) l) as [| x xs];
      [inversion Hx | cbn [length]; lia].
Qed.

Lemma unlocked_in_cons (a : Achievement) (l : list Achievement) (id : string) :
  unlocked_in (a :: l) id <->
  (ach_id a = id /\ is_Some (ach_unlockedAt a)) \/ unlocked_in l id.
Proof.
  unfold unlocked_in. split.
  - intros (x & Hx & Hid & Hs).
    apply elem_of_cons in Hx as [-> | Hx]; [left; tauto | right; eauto].
  - intros [[Hid Hs] | (x & Hx & Hid & Hs)].
    + exists a. split; [left | tauto].
    + exists x. split; [now right | tauto].
Qed.

Lemma unlocked_in_nil (id : string) : unlocked_in [] id <-> False.
Proof.
  split; [intros (x & Hx & _); inversion Hx | contradiction].
Qed.

Lemma unlocked_in_five (a1 a2 a3 a4 a5 : Achievement) (id : string) :
  unlocked_in [a1; a2; a3; a4; a5] id <->
  (ach_id a1 = id /\ is_Some (ach_unlockedAt a1)) \/
  (ach_id a2 = id /\ is_Some (ach_unlockedAt a2)) \/
  (ach_id a3 = id /\ is_Some (ach_unlockedAt a3)) \/
  (ach_id a4 = id /\ is_Some (ach_unlockedAt a4)) \/
  (ach_id a5 = id /\ is_Some (ach_unlockedAt a5)).
Proof. rewrite !unlocked_in_cons, unlocked_in_nil. tauto. Qed.

Lemma getAchievements_unlocked (w : World) :
  let achs := (getAchievements w).1 in
  (unlocked_in achs "first-card" <-> (1 <= length (stored w))%nat) /\
  (unlocked_in achs "collector" <-> (10 <= length (stored w))%nat) /\
  (unlocked_in achs "master-collector" <-> (50 <= length (stored w))%nat) /\
  (unlocked_in achs "legendary-pull" <->
     exists c, c ∈ stored w /\ rarity c = legendary) /\
  (unlocked_in achs "mythic-hunter" <->
     exists c, c ∈ stored w /\ rarity c = mythic) /\
  ~ unlocked_in achs "perfect-game".
Proof.
  cbv zeta. rewrite getAchievements_reply.
  pose proof (proj2 (unlockedAt_nth_lookup (stored w) 1 ltac:(lia))) as H1.
  pose proof (proj2 (unlockedAt_nth_lookup (stored w) 10 ltac:(lia))) as H10.
  pose proof (proj2 (unlockedAt_nth_lookup (stored w) 50 ltac:(lia))) as H50.
  pose proof (find_rarity_is_Some (stored w) legendary) as HL.
  pose proof (find_rarity_is_Some (stored w) mythic) as HM.
  set (P1 := is_Some (unlockedAt_nth (stored w) 1)) in *.
  set (P10 := is_Some (unlockedAt_nth (stored w) 10)) in *.
  set (P50 := is_Some (unlockedAt_nth (stored w) 50)) in *.
  set (PL := is_Some (unlockedAt_first (stored w) legendary)) in *.
  set (PM := is_Some (unlockedAt_first (stored w) mythic)) in *.
  repeat split;
    try (intros H; apply unlocked_in_five in H;
         cbn [ach_id ach_unlockedAt] in H;
         fold P1 P10 P50 PL PM in H;
         destruct H as [[E H] | [[E H] | [[E H] | [[E H] | [E H]]]]];
         try discriminate E;
         first [ now apply H1 | now apply H10 | now apply H50
               | now apply HL | now apply HM ]);
    intros H; apply unlocked_in_five; cbn [ach_id ach_unlockedAt];
    fold P1 P10 P50 PL PM.
  - left. split; [reflexivity | now apply H1].
  - right. left. split; [reflexivity | now apply H10].
  - right. right. left. split; [reflexivity | now apply H50].
  - right. right. right. left. split; [reflexivity | now apply HL].
  - right. right. right. right. split; [reflexivity | now apply HM].
Qed.

(** X20.  The achievements reply always lists the same five achievements
    (never [perfect-game]) with targets 1, 10, 50, 1, 1.  The three counting
    ones are unlocked exactly when the stored collection has at least 1, 10
    and 50 cards, [legendary-pull] and [mythic-hunter] exactly when a stored
    card has that rarity.  For every entry the progress is at most the
    target, and the entry carries an unlock timestamp exactly when the
    progress has reached the target.  The call does not change the stored
    cards. *)
Theorem achievements_view (w : World) :
  let achs := (getAchievements w).1 in
  map ach_id achs
  = ["first-card"; "collector"; "master-collector"; "legendary-pull";
     "mythic-hunter"] /\
  map ach_maxProgress achs = [1; 10; 50; 1; 1]%nat /\
  (unlocked_in achs "first-card" <-> (1 <= length (stored w))%nat) /\
  (unlocked_in achs "collector" <-> (10 <= length (stored w))%nat) /\
  (unlocked_in achs "master-collector" <-> (50 <= length (stored w))%nat) /\
  (unlocked_in achs "legendary-pull" <->
     exists c, c ∈ stored w /\ rarity c = legendary) /\
  (unlocked_in achs "mythic-hunter" <->
     exists c, c ∈ stored w /\ rarity c = mythic) /\
  Forall (fun a =>
            (ach_progress a <= ach_maxProgress a)%nat /\
            (is_Some (ach_unlockedAt a)
             <-> ach_progress a = ach_maxProgress a)) achs /\
  stored (getAchievements w).2 = stored w.
Proof.
  destruct (getAchievements_unlocked w) as (H1 & H10 & H50 & HL & HM & _).
  cbv zeta in *.
  repeat (split; [first [assumption | now rewrite getAchievements_reply] |]).
  split; [| apply getAchievements_stored].
  rewrite getAchievements_reply.
  pose proof (proj2 (unlockedAt_nth_lookup (stored w) 1 ltac:(lia))) as N1.
  pose proof (proj2 (unlockedAt_nth_lookup (stored w) 10 ltac:(lia))) as N10.
  pose proof (proj2 (unlockedAt_nth_lookup (stored w) 50 ltac:(lia))) as N50.
  apply Forall_cons_2;
    [| apply Forall_cons_2;
       [| apply Forall_cons_2;
          [| apply Forall_cons_2;
             [| apply Forall_cons_2; [| apply Forall_nil_2]]]]];
    cbn [ach_progress ach_maxProgress ach_unlockedAt];
    (split; [lia |]);
    rewrite ?N1, ?N10, ?N50, ?find_rarity_is_Some, ?filter_rarity_min;
    first [reflexivity | lia].
Qed.

(** X21.  What an award reports agrees with the achievements view read
    right after it: every reported achievement other than [perfect-game] is
    listed as unlocked there.  The view also shows [mythic-hunter] unlocked
    after an award that minted a mythic card and [master-collector] once 50
    cards are stored, although no award reports these two. *)
Theorem reported_achievements_show_unlocked CHARACTERS req (w : World)
    reward w' :
  awardCard CHARACTERS req w = (AwardSuccess reward, w') ->
  let achs := (getAchievements w').1 in
  (forall id, id ∈ map ach_id (unlockedAchievements reward) ->
              id <> "perfect-game" -> unlocked_in achs id) /\
  (rarity (card reward) = mythic -> unlocked_in achs "mythic-hunter") /\
  ((50 <= length (stored w'))%nat -> unlocked_in achs "master-collector") /\
  ~ unlocked_in achs "perfect-game".
Proof.
  intros Hrun achs. subst achs.
  destruct (getAchievements_unlocked w') as (H1 & H10 & H50 & HL & HM & HP).
  cbv zeta in *.
  destruct (awardCard_fired _ _ _ _ _ Hrun) as (F1 & F10 & FL & _ & Fall).
  cbv zeta in *.
  destruct (awardCard_inv _ _ _ _ _ Hrun)
    as (cid & g & c & wr & ch & _ & _ & _ & _ & _ & _ & Hpost).
  pose proof (award_post_stored _ _ _ _ _ _ _ _ _ Hpost) as Hst.
  assert (Hlen : length (stored w') = (length (stored w) + 1)%nat)
    by (rewrite Hst, length_app; reflexivity).
  assert (Hin : card reward ∈ stored w')
    by (rewrite Hst; apply elem_of_app; right; left).
  split; [| split; [| split; [| exact HP]]].
  - intros id Hid Hnp. pose proof (Fall id Hid) as Hcases.
    repeat (apply elem_of_cons in Hcases as [-> | Hcases]).
    + apply H1. apply F1 in Hid. lia.
    + apply H10. apply F10 in Hid. lia.
    + apply HL. apply FL in Hid as [Hleg _]. eauto.
    + contradiction.
    + inversion Hcases.
  - intros Hm. apply HM. eauto.
  - intros H. now apply H50.
Qed.

Lemma reported_achievements_show_unlocked_witness :
  let w := fresh_world (1 # 2) FetchNotOk in
  exists reward w',
    awardCard demo_catalog (award_request "spider-man" 0 0 0 true) w
    = (AwardSuccess reward, w') /\
    map ach_id (unlockedAchievements reward)
    = ["first-card"; "legendary-pull"; "perfect-game"] /\
    unlocked_in (getAchievements w').1 "first-card" /\
    unlocked_in (getAchievements w').1 "legendary-pull".
Proof.
  intros w.
  destruct (awardCard demo_catalog (award_request "spider-man" 0 0 0 true) w)
    as [[reward | st err] w'] eqn:Hrun; [| vm_compute in Hrun; discriminate].
  exists reward, w'. split; [reflexivity |].
  assert (Hids : map ach_id (unlockedAchievements reward)
                 = ["first-card"; "legendary-pull"; "perfect-game"])
    by (vm_compute in Hrun; injection Hrun as <- _; reflexivity).
  split; [exact Hids |].
  destruct (reported_achievements_show_unlocked _ _ _ _ _ Hrun)
    as (Hall & _).
  split; apply Hall; rewrite ?Hids; try discriminate;
    repeat first [apply list_elem_of_here | apply list_elem_of_further].
Defined.

(** X22.  As long as the collection is not read in between, the timestamps
    of the achievements view follow the order in which the cards were
    minted: after a run of awards and achievement reads, [first-card],
    [collector] and [master-collector] carry the timestamp of the 1st, 10th
    and 50th card ever owned, and [legendary-pull] that of the first
    legendary card ever owned. *)
Theorem achievement_times_follow_mint_order CHARACTERS rs (w : World) :
  Forall (fun r => r <> GetCollection) rs ->
  let w' := (serve CHARACTERS rs w).2 in
  let owned := stored w ++ minted (serve CHARACTERS rs w).1 in
  let reply := AchievementsReply (getAchievements w').1 in
  stored w' = owned /\
  reported_unlockedAt "first-card" reply = unlockedAt <$> owned !! 0%nat /\
  reported_unlockedAt "collector" reply = unlockedAt <$> owned !! 9%nat /\
  reported_unlockedAt "master-collector" reply
  = unlockedAt <$> owned !! 49%nat /\
  reported_unlockedAt "legendary-pull" reply
  = unlockedAt <$>
      List.find (fun c => bool_decide (rarity c = legendary)) owned.
Proof.
  intros Hrs w' owned reply.
  pose proof (stored_append_only CHARACTERS rs Hrs w) as Hst.
  fold w' owned in Hst. split; [exact Hst |].
  subst reply. rewrite getAchievements_reply, Hst.
  clearbody owned. clear Hst Hrs w'.
  destruct (unlockedAt_nth_lookup owned 1 ltac:(lia)) as [E1 _].
  destruct (unlockedAt_nth_lookup owned 10 ltac:(lia)) as [E10 _].
  destruct (unlockedAt_nth_lookup owned 50 ltac:(lia)) as [E50 _].
  unfold reported_unlockedAt. cbn [List.find ach_id].
  repeat split;
    repeat (first [ rewrite bool_decide_eq_true_2 by reflexivity
                  | rewrite bool_decide_eq_false_2 by discriminate ]);
    cbn [mbind option_bind ach_unlockedAt];
    first [exact E1 | exact E10 | exact E50 | reflexivity].
Qed.

Lemma achievement_times_follow_mint_order_witness :
  let w := fresh_world (1 # 2) FetchNotOk in
  let w' := (serve demo_catalog ten_awards w).2 in
  let reply := AchievementsReply (getAchievements w').1 in
  reported_unlockedAt "first-card" reply = Some 2000%Z /\
  reported_unlockedAt "legendary-pull" reply = Some 2000%Z /\
  reported_unlockedAt "collector" reply
  = unlockedAt <$> minted (serve demo_catalog ten_awards w).1 !! 9%nat /\
  reported_unlockedAt "master-collector" reply = None.
Proof.
  intros w w' reply.
  assert (Hrs : Forall (fun r => r <> GetCollection) ten_awards)
    by (repeat constructor; discriminate).
  destruct (achievement_times_follow_mint_order demo_catalog ten_awards w Hrs)
    as (_ & H1 & H10 & H50 & HL).
  fold w' reply in H1, H10, H50, HL.
  split; [rewrite H1; vm_compute; reflexivity |].
  split; [rewrite HL; vm_compute; reflexivity |].
  split; [rewrite H10; vm_compute; reflexivity |].
  rewrite H50. vm_compute. reflexivity.
Defined.

(** ** The achievements an award reports *)

(** X23.  Every achievement a reward reports is complete (its progress
    equals its maximum) and carries an unlock timestamp.  A reward reports
    at most three achievements, each at most once, because [first-card] and
    [collector] never fire together.  All this holds whatever the clock
    does.  When the clock does not run backwards, moreover, the timestamps
    are not earlier than the card's [unlockedAt], which is not earlier than
    the time in the card id. *)
Theorem reported_achievements_are_complete CHARACTERS req (w : World)
    reward w' :
  awardCard CHARACTERS req w = (AwardSuccess reward, w') ->
  Forall (fun a =>
            ach_progress a = ach_maxProgress a /\
            exists t, ach_unlockedAt a = Some t)
    (unlockedAchievements reward) /\
  NoDup (map ach_id (unlockedAchievements reward)) /\
  (length (unlockedAchievements reward) <= 3)%nat /\
  (clock_monotone w ->
   Forall (fun a =>
             exists t, ach_unlockedAt a = Some t /\
                       (unlockedAt (card reward) <= t)%Z)
     (unlockedAchievements reward) /\
   (id_now (card_id (card reward)) <= unlockedAt (card reward))%Z).
Proof.
  intros Hrun.
  destruct (awardCard_reward_inv _ _ _ _ _ Hrun)
    as (cid & g & c & wr & ch & _ & _ & _ & _ & _ & _ & Hrw).
  cbv zeta in Hrw. rewrite Hrw.
  set (score := calculatePerformanceScore g c wr (req_isWon req)).
  cbn [card unlockedAchievements].
  change (unlockedAt (minted_card ch cid score w))
    with (clock_src w (S (clock_pos w))).
  change (id_now (card_id (minted_card ch cid score w)))
    with (clock_src w (clock_pos w)).
  set (coll := stored w ++ [minted_card ch cid score w]).
  set (r := rarity (minted_card ch cid score w)).
  assert (Hlater : clock_monotone w -> forall n, (2 + clock_pos w <= n)%nat ->
            (clock_src w (S (clock_pos w)) <= clock_src w n)%Z)
    by (intros Hclock n Hn; apply Hclock; lia).
  split; [| split; [| split;
    [| intros Hclock; specialize (Hlater Hclock);
       split; [| apply Hclock; lia]]]];
    unfold event_achievements;
    destruct (Nat.eqb_spec (length coll) 1) as [E1 | E1];
    destruct (Nat.eqb_spec (length coll) 10) as [E10 | E10];
    try (exfalso; lia);
    destruct (bool_decide (r = legendary) &&
              (length (filter (fun c => rarity c = legendary) coll) =? 1)%nat);
    destruct (Qeq_bool score 100);
    cbn [app map length ach_id first_card collector legendary_pull
         perfect_game];
    try lia;
    try (repeat (apply Forall_cons_2;
                 [first [ split; [reflexivity |]; eexists; reflexivity
                        | eexists; split; [reflexivity |]; apply Hlater; lia ]
                 |]); apply Forall_nil_2);
    apply (bool_decide_unpack _); vm_compute; exact I.
Qed.

Lemma reported_achievements_are_complete_witness :
  let w := fresh_world (1 # 2) FetchNotOk in
  exists reward w',
    awardCard demo_catalog (award_request "spider-man" 0 0 0 true) w
    = (AwardSuccess reward, w') /\
    map ach_unlockedAt (unlockedAchievements reward)
    = [Some 3000%Z; Some 4000%Z; Some 5000%Z] /\
    unlockedAt (card reward) = 2000%Z /\
    Forall (fun a => ach_progress a = ach_maxProgress a)
      (unlockedAchievements reward) /\
    Forall (fun a => exists t, ach_unlockedAt a = Some t /\ (2000 <= t)%Z)
      (unlockedAchievements reward).
Proof.
  intros w.
  destruct (awardCard demo_catalog (award_request "spider-man" 0 0 0 true) w)
    as [[reward | st err] w'] eqn:Hrun; [| vm_compute in Hrun; discriminate].
  exists reward, w'. split; [reflexivity |].
  assert (Hclock : clock_monotone w) by (intros i j Hij; cbn; lia).
  destruct (reported_achievements_are_complete _ _ _ _ _ Hrun)
    as (Hall & _ & _ & Htimes).
  destruct (Htimes Hclock) as [Hlate _].
  assert (Hrw : map ach_unlockedAt (unlockedAchievements reward)
                = [Some 3000%Z; Some 4000%Z; Some 5000%Z] /\
                unlockedAt (card reward) = 2000%Z)
    by (vm_compute in Hrun; injection Hrun as <- _; split; reflexivity).
  split; [exact (proj1 Hrw) |]. split; [exact (proj2 Hrw) |].
  split.
  - eapply Forall_impl; [exact Hall |]. intros a [Ha _]. exact Ha.
  - rewrite (proj2 Hrw) in Hlate. exact Hlate.
Defined.

(** ** The replies as the client shows them *)

(** X24.  The grade the reward dialog shows bounds the rarity of the card:
    with grade S the card is mythic, legendary or epic; with grade S or A it
    is never common; with grade C, D or F it is never mythic or legendary.
    A lost game, or a request without [isWon], is always graded F. *)
Theorem grade_bounds_rarity CHARACTERS req (w : World) reward w' :
  awardCard CHARACTERS req w = (AwardSuccess reward, w') ->
  let grade := performanceGrade (perf_score (performance reward)) in
  let r := rarity (card reward) in
  (grade = "S" -> r = mythic \/ r = legendary \/ r = epic) /\
  (grade = "S" \/ grade = "A" -> r <> common) /\
  (grade = "C" \/ grade = "D" \/ grade = "F" ->
   r <> mythic /\ r <> legendary) /\
  (req_isWon req <> Some true -> grade = "F").
Proof.
  intros Hrun grade r. subst grade r.
  destruct (awardCard_inv _ _ _ _ _ Hrun)
    as (cid & g & c & wr & ch & _ & _ & _ & _ & _ & _ & Hcard & Hscore & _).
  rewrite Hcard, Hscore. cbn [rarity minted_card].
  split; [| split; [| split]].
  4:{ intros Hlost.
      assert (Hf : is_falsy (req_isWon req) = true)
        by (destruct (req_isWon req) as [[|] |]; [contradiction | | ];
            reflexivity).
      unfold calculatePerformanceScore. rewrite Hf. reflexivity. }
  all: set (s := calculatePerformanceScore g c wr (req_isWon req));
    unfold performanceGrade, determineRarity, Qgeb, bind, Math_random, ret;
    repeat match goal with
    | |- context [Qle_bool ?a s] =>
        let H := fresh "Hle" in
        destruct (Qle_bool a s) eqn:H;
        [apply Qle_bool_iff in H | apply Qle_bool_false in H]
    end;
    try (exfalso; lra);
    repeat match goal with
    | |- context [Qltb ?a ?b] => destruct (Qltb a b)
    end;
    cbn [fst]; intros H;
    repeat match type of H with
           | _ \/ _ => destruct H as [H | H]
           end;
    try discriminate H;
    repeat split; try (intros H'; discriminate H'); auto.
Qed.

Lemma grade_bounds_rarity_witness :
  let w := fresh_world (1 # 10) (FetchOk 42) in
  (exists reward w',
     awardCard demo_catalog (award_request "spider-man" 5 0 0 true) w
     = (AwardSuccess reward, w') /\
     performanceGrade (perf_score (performance reward)) = "S" /\
     rarity (card reward) <> common) /\
  (exists reward w',
     awardCard demo_catalog request_without_isWon w
     = (AwardSuccess reward, w') /\
     performanceGrade (perf_score (performance reward)) = "F" /\
     rarity (card reward) <> mythic).
Proof.
  intros w. split.
  - destruct (awardCard demo_catalog (award_request "spider-man" 5 0 0 true) w)
      as [[reward | st err] w'] eqn:Hrun; [| vm_compute in Hrun; discriminate].
    exists reward, w'. split; [reflexivity |].
    destruct (grade_bounds_rarity _ _ _ _ _ Hrun) as (_ & HSA & _).
    assert (Hg : performanceGrade (perf_score (performance reward)) = "S")
      by (vm_compute in Hrun; injection Hrun as <- _; reflexivity).
    split; [exact Hg | apply HSA; now left].
  - destruct (awardCard demo_catalog request_without_isWon w)
      as [[reward | st err] w'] eqn:Hrun; [| vm_compute in Hrun; discriminate].
    exists reward, w'. split; [reflexivity |].
    destruct (grade_bounds_rarity _ _ _ _ _ Hrun) as (_ & _ & HCDF & Hlost).
    assert (Hg : performanceGrade (perf_score (performance reward)) = "F")
      by (apply Hlost; discriminate).
    split; [exact Hg |].
    apply HCDF. right. right. exact Hg.
Defined.

Lemma List_filter_bool_decide (P : CharacterCard -> Prop)
    `{!forall c, Decision (P c)} (l : list CharacterCard) :
  List.filter (fun c => bool_decide (P c)) l = filter P l.
Proof.
  induction l as [| x l IH]; [reflexivity |].
  cbn [List.filter]. rewrite filter_cons, IH.
  case_bool_decide as Hx; case_decide; try reflexivity; contradiction.
Qed.

(** X25.  The collection page shows what the reply counts: with the filter
    "all" it lists every card of the reply, with a rarity selected it lists
    only cards of that rarity, still newest first, and as many of them as
    [rarityCount] of the reply says for that rarity; before a collection has
    been fetched it lists nothing and counts 0. *)
Theorem collection_page_matches_counts CHARACTERS (w : World) :
  let res := (getCardCollection CHARACTERS w).1 in
  filteredCards (Some res) AllRarities = Some (cards res) /\
  (forall r,
     exists shown,
       filteredCards (Some res) (OnlyRarity r) = Some shown /\
       Forall (fun c => rarity c = r) shown /\
       newest_first_sorted shown /\
       length shown = rarityStats (Some res) r /\
       rarityStats (Some res) r
       = length (filter (fun c => rarity c = r) (stored w))) /\
  (forall f, filteredCards None f = None) /\
  (forall r, rarityStats None r = 0%nat).
Proof.
  cbv zeta. rewrite getCardCollection_reply.
  unfold filteredCards, rarityStats.
  cbn [fmap option_fmap option_map mbind option_bind cards rarityCount].
  split.
  { f_equal. induction (Array_sort newest_first (stored w)) as [| x l IH];
      [reflexivity | cbn [List.filter]; now rewrite IH]. }
  split; [| split; reflexivity].
  intros r. eexists. split; [reflexivity |].
  rewrite (List_filter_bool_decide (fun c => rarity c = r)).
  rewrite rarityCount_exact. cbn [default from_option id].
  split; [| split; [| split; [| reflexivity]]].
  - apply Forall_forall. intros c Hc.
    now apply list_elem_of_filter in Hc as [Hr _].
  - unfold newest_first_sorted.
    pose proof (Array_sort_sorted (stored w)) as Hs.
    unfold newest_first_sorted in Hs.
    induction Hs as [| x l Hl IH Hx]; [rewrite filter_nil; constructor |].
    rewrite filter_cons. case_decide; [| exact IH].
    constructor; [exact IH |].
    apply Forall_forall. intros y Hy.
    apply list_elem_of_filter in Hy as [_ Hy].
    rewrite Forall_forall in Hx. now apply Hx.
  - now rewrite (Array_sort_perm newest_first (stored w)).
Qed.

(** ** Perfect games, missing [isWon], and the store of a user *)

(** X26.  An award for a won game with guess time, clues used and wrong
    attempts all 0 scores exactly 100 and reports [perfect-game].  An award
    that reports [perfect-game] is for a won game: a lost game, or a request
    without [isWon], never reports it.  And with non-negative telemetry one
    second of guess time, one clue or one wrong attempt is enough to lose
    it: the score is then below 100 and [perfect-game] is not reported. *)
Theorem perfect_game_needs_zeros CHARACTERS req (w : World) reward w' :
  awardCard CHARACTERS req w = (AwardSuccess reward, w') ->
  let p := performance reward in
  let perfect := "perfect-game" ∈ map ach_id (unlockedAchievements reward) in
  (req_isWon req = Some true ->
   (perf_guessTime p == 0)%Q -> (perf_cluesUsed p == 0)%Q ->
   (perf_wrongAttempts p == 0)%Q ->
   (perf_score p == 100)%Q /\ perfect) /\
  (perfect -> req_isWon req = Some true) /\
  ((0 <= perf_guessTime p)%Q -> (0 <= perf_cluesUsed p)%Q ->
   (0 <= perf_wrongAttempts p)%Q ->
   (1 <= perf_guessTime p)%Q \/ (1 <= perf_cluesUsed p)%Q \/
   (1 <= perf_wrongAttempts p)%Q ->
   (perf_score p < 100)%Q /\ ~ perfect).
Proof.
  intros Hrun p perfect. subst p perfect.
  destruct (awardCard_fired _ _ _ _ _ Hrun) as (_ & _ & _ & HP & _).
  cbv zeta in HP. rewrite HP.
  destruct (awardCard_reward_inv _ _ _ _ _ Hrun)
    as (cid & g & c & wr & ch & _ & _ & _ & _ & _ & _ & Hrw).
  cbv zeta in Hrw. rewrite Hrw.
  cbn [performance perf_guessTime perf_cluesUsed perf_wrongAttempts
       perf_score].
  split; [| split].
  - intros Hwon Hg Hc Hw. rewrite Hwon.
    assert (Hs : (calculatePerformanceScore g c wr (Some true) == 100)%Q).
    { apply score_100_iff; [lra | lra | lra |]. repeat split; assumption. }
    split; exact Hs.
  - destruct (req_isWon req) as [[|] |]; [reflexivity | |];
      intros H; discriminate H.
  - intros Hg Hc Hw Hone.
    assert (Hlt : (calculatePerformanceScore g c wr (req_isWon req) < 100)%Q).
    { destruct (req_isWon req) as [[|] |]; [| reflexivity | reflexivity].
      pose proof (score_clamped g c wr (Some true)) as [_ Hle].
      pose proof (score_100_iff g c wr Hg Hc Hw) as Hiff.
      destruct (Qlt_le_dec (calculatePerformanceScore g c wr (Some true)) 100)
        as [Hlt | Hge]; [exact Hlt | exfalso].
      assert (Heq : (calculatePerformanceScore g c wr (Some true) == 100)%Q)
        by (apply Qle_antisym; assumption).
      apply Hiff in Heq as (Hg0 & Hc0 & Hw0).
      destruct Hone as [H | [H | H]]; lra. }
    split; [exact Hlt |].
    intros Heq. rewrite Heq in Hlt. discriminate Hlt.
Qed.

Lemma perfect_game_needs_zeros_witness :
  let w := fresh_world (1 # 2) FetchNotOk in
  (exists reward w',
     awardCard demo_catalog (award_request "spider-man" 0 0 0 true) w
     = (AwardSuccess reward, w') /\
     (perf_score (performance reward) == 100)%Q /\
     "perfect-game" ∈ map ach_id (unlockedAchievements reward)) /\
  (exists reward w',
     awardCard demo_catalog (award_request "spider-man" 0 1 0 true) w
     = (AwardSuccess reward, w') /\
     (perf_score (performance reward) < 100)%Q /\
     ~ "perfect-game" ∈ map ach_id (unlockedAchievements reward)).
Proof.
  intros w. split.
  - destruct (awardCard demo_catalog (award_request "spider-man" 0 0 0 true) w)
      as [[reward | st err] w'] eqn:Hrun; [| vm_compute in Hrun; discriminate].
    exists reward, w'. split; [reflexivity |].
    assert (Hp : performance reward
                 = {| perf_guessTime := 0; perf_cluesUsed := 0;
                      perf_wrongAttempts := 0; perf_score := 100 |})
      by (vm_compute in Hrun; injection Hrun as <- _; reflexivity).
    destruct (perfect_game_needs_zeros _ _ _ _ _ Hrun) as [Hzero _].
    apply Hzero; [reflexivity | rewrite Hp; reflexivity ..].
  - destruct (awardCard demo_catalog
                (award_request "spider-man" 0 1 0 true) w)
      as [[reward | st err] w'] eqn:Hrun; [| vm_compute in Hrun; discriminate].
    exists reward, w'. split; [reflexivity |].
    assert (Hp : perf_guessTime (performance reward) = 0%Q /\
                 perf_cluesUsed (performance reward) = 1%Q /\
                 perf_wrongAttempts (performance reward) = 0%Q)
      by (vm_compute in Hrun; injection Hrun as <- _; repeat split).
    destruct Hp as (Hg & Hc & Hw).
    destruct (perfect_game_needs_zeros _ _ _ _ _ Hrun) as (_ & _ & Hone).
    apply Hone; rewrite ?Hg, ?Hc, ?Hw; try discriminate.
    right; left. discriminate.
Defined.

(** X27.  A request without [isWon] is handled exactly as a request that
    says the game was lost: same reply, same effect on the world. *)
Theorem missing_isWon_means_lost CHARACTERS req (w : World) :
  req_isWon req = None ->
  awardCard CHARACTERS req w =
    awardCard CHARACTERS
      {| req_characterId := req_characterId req;
         req_guessTime := req_guessTime req;
         req_cluesUsed := req_cluesUsed req;
         req_wrongAttempts := req_wrongAttempts req;
         req_isWon := Some false |} w.
Proof.
  intros Hnone. unfold awardCard.
  cbn [req_characterId req_guessTime req_cluesUsed req_wrongAttempts
       req_isWon].
  rewrite Hnone. reflexivity.
Qed.

Lemma missing_isWon_means_lost_witness :
  let w := fresh_world (9 # 10) (FetchOk 42) in
  awardCard demo_catalog request_without_isWon w
  = awardCard demo_catalog (award_request "spider-man" 5 0 0 false) w.
Proof.
  intros w.
  exact (missing_isWon_means_lost demo_catalog request_without_isWon w
           eq_refl).
Defined.

(** X28.  [getCollection] gets or creates: for a user without a collection
    it returns the empty array and stores it, for a user with one it returns
    the stored array and changes nothing.  After the call the user has the
    returned array stored, a second call changes nothing, and the
    collections of other users are never touched. *)
Theorem getCollection_gets_or_creates user (w : World) :
  let collection := (getCollection user w).1 in
  let w' := (getCollection user w).2 in
  collection = default [] (cardCollections w !! user) /\
  cardCollections w' !! user = Some collection /\
  (is_Some (cardCollections w !! user) -> w' = w) /\
  getCollection user w' = (collection, w') /\
  (forall other, other <> user ->
     cardCollections w' !! other = cardCollections w !! other).
Proof.
  cbv zeta. unfold getCollection. cbn [fst snd].
  case_bool_decide as Hs.
  - destruct Hs as [l Hl]. rewrite Hl. cbn [default from_option id].
    repeat split; try reflexivity.
    rewrite bool_decide_eq_true_2 by eauto. now rewrite Hl.
  - cbn [cardCollections set_cardCollections].
    rewrite lookup_insert_eq.
    destruct (cardCollections w !! user) eqn:E; [exfalso; apply Hs; eauto |].
    cbn [default from_option id].
    split; [reflexivity |]. split; [reflexivity |].
    split; [intros [x Hx]; discriminate Hx |].
    split.
    + assert (Hl : cardCollections
                     (set_cardCollections
                        (<[user := []]> (cardCollections w)) w) !! user
                   = Some [])
        by (cbn [cardCollections set_cardCollections];
            apply lookup_insert_eq).
      rewrite bool_decide_eq_true_2 by eauto. rewrite Hl. reflexivity.
    + intros other Hne. now apply lookup_insert_ne.
Qed.

Lemma getCollection_gets_or_creates_witness :
  let w := (serve demo_catalog three_awards
              (fresh_world (1 # 10) (FetchOk 42))).2 in
  (getCollection "default" w).2 = w /\
  length (getCollection "default" w).1 = 3%nat /\
  (getCollection "guest" w).1 = [] /\
  cardCollections (getCollection "guest" w).2 !! "guest" = Some [].
Proof.
  intros w.
  destruct (getCollection_gets_or_creates "default" w)
    as (_ & _ & Hsame & _).
  destruct (getCollection_gets_or_creates "guest" w) as (Hc & Hl & _).
  split; [apply Hsame; vm_compute; eauto |].
  split; [vm_compute; reflexivity |].
  assert (Hempty : (getCollection "guest" w).1 = [])
    by (rewrite Hc; vm_compute; reflexivity).
  split; [exact Hempty |]. now rewrite Hl, Hempty.
Defined.
